(** * SpeechTide — native keyboard text insertion (ax-insert.cpp)

    A shallow embedding of [src/native/ax-insert/src/ax-insert.cpp]:
    the [KeyboardInputSystem] class (UTF-8 aware chunking, per-character
    key events), the process-wide singleton, and the [InsertText] binding.

    Conventions.
    - [std::string] is a [list byte]; [size_t] is a [Z] in [0, 2^64) with
      the wrap-around written out ([size_add], [size_sub]).
    - Platform calls (CoreGraphics / CoreFoundation) act on an explicit
      [World]: an ordered trace of observable effects, the counters of the
      creation calls with the oracles that say which of them succeed, the
      set of event sources that are still owned, and the global singleton.
    - The [while] loop of [inputLargeTextOptimized] takes fuel: one unit per
      iteration.  [OutOfFuel] says that the given number of iterations did
      not reach the loop exit. *)

From Stdlib Require Import ZArith List Bool Lia.
From Stdlib.Strings Require Import String Byte.
Import ListNotations.
Open Scope Z_scope.

(** ** Machine integers and strings *)

Definition size_max : Z := 2 ^ 64.

Definition size_add (a b : Z) : Z := (a + b) mod size_max.
Definition size_sub (a b : Z) : Z := (a - b) mod size_max.

Definition byteZ (b : byte) : Z := Z.of_N (Byte.to_N b).

(** [text.length()] *)
Definition len (text : list byte) : Z := Z.of_nat (List.length text).

(** [text[i]]: defined for [i <= text.length()]; the element one past the
    end is the terminating NUL.  Any other index is an out-of-bounds read. *)
Definition string_at (text : list byte) (i : Z) : option byte :=
  if (0 <=? i) && (i <? len text) then nth_error text (Z.to_nat i)
  else if i =? len text then Some x00
  else None.

(** [text.substr(pos, n)] for [pos <= text.length()]: at most [n] bytes
    starting at [pos].  The loop calls it with [pos < text.length()] only,
    so the [std::out_of_range] of a larger [pos] is not part of the model. *)
Definition substr (text : list byte) (pos n : Z) : list byte :=
  firstn (Z.to_nat n) (skipn (Z.to_nat pos) text).

(** [text.c_str()] as seen by a consumer of C strings: the bytes before the
    first NUL. *)
Fixpoint c_str (text : list byte) : list byte :=
  match text with
  | [] => []
  | b :: rest => if Byte.eqb b x00 then [] else b :: c_str rest
  end.

(** ** Outcomes of partial computations *)

Inductive Outcome (A : Type) : Type :=
| Ret (a : A)          (* the call returned [a] *)
| OutOfFuel            (* the loop did not exit within the given iterations *)
| Undefined.           (* undefined or unmodelled behaviour was reached *)
Arguments Ret {A} a.
Arguments OutOfFuel {A}.
Arguments Undefined {A}.

(** ** adjustChunkSize (ax-insert.cpp:100-124) *)

Definition is_lead2 (b : Z) : bool := Z.land b 0xE0 =? 0xC0.
Definition is_lead3 (b : Z) : bool := Z.land b 0xF0 =? 0xE0.
Definition is_lead4 (b : Z) : bool := Z.land b 0xF8 =? 0xF0.

Definition adjustChunkSize (text : list byte) (position chunkSize : Z)
  : option Z :=
  let endPosition := size_add position chunkSize in
  if len text <=? endPosition then Some (size_sub (len text) position)
  else
    match string_at text (size_sub endPosition 1) with
    | None => None
    | Some c =>
        let lastByte := byteZ c in
        if is_lead2 lastByte then Some (size_sub chunkSize 1)
        else if is_lead3 lastByte then Some (size_sub chunkSize 1)
        else if is_lead4 lastByte then Some (size_sub chunkSize 1)
        else Some chunkSize
    end.

(** ** The world the injector acts on *)

(** An event source handle ([CGEventSourceRef]); [None] is [NULL].  Every
    successful [CGEventSourceCreate] hands out a new object, identified by
    the number of the call that created it. *)
Definition CGEventSourceRef : Type := option nat.

(** A keyboard event ([CGEventRef]). *)
Record CGEvent : Type := mkEvent {
  ev_source  : CGEventSourceRef;
  ev_keycode : Z;
  ev_keyDown : bool;
  ev_unicode : list Z          (* UTF-16 code units carried by the event *)
}.

(** The lines written to [std::cout] / [std::cerr]; the numbers a line
    prints are kept as data. *)
Inductive LogLine : Type :=
| KbdUninitialized                           (* "[Keyboard] 键盘输入系统未初始化" *)
| KbdChunk (index total position size : Z)   (* "[Keyboard] 输入文本块 i/n (位置: p, 大小: s)" *)
| KbdChunkFailed                             (* "[Keyboard] 文本块输入失败" *)
| KbdCFStringFailed                          (* "[Keyboard] 无法创建 CFString" *)
| AxSystemInitialized                        (* "[AXInsert] ✓ 键盘输入系统已初始化" *)
| AxInsertStart (length : Z)                 (* "[AXInsert] 开始插入文本，长度: n" *)
| AxSimStart (length : Z)                    (* "[AXInsert] 开始键盘模拟输入，文本长度: n" *)
| AxSimInitFailed                            (* "[AXInsert] ✗ 键盘输入系统初始化失败" *)
| AxSimOk                                    (* "[AXInsert] ✓ 键盘模拟输入成功" *)
| AxSimFailed                                (* "[AXInsert] ✗ 键盘模拟输入失败" *)
| AxPermissionGranted                        (* "[AXInsert] ✓ 辅助功能权限检查通过" *)
| AxPermissionDenied.                        (* "[AXInsert] ✗ 辅助功能权限不足" *)

Inductive Effect : Type :=
| Post (e : CGEvent)        (* CGEventPost(kCGHIDEventTap, e) *)
| Usleep (us : Z)           (* usleep(us) *)
| Cout (l : LogLine)
| Cerr (l : LogLine).

(** class KeyboardInputSystem: its two private members. *)
Record KeyboardInputSystem : Type := mkKeyboard {
  _source        : CGEventSourceRef;
  _isInitialized : bool
}.

Record World : Type := mkWorld {
  trace           : list Effect;            (* effects so far, oldest first *)
  eventCalls      : nat;                    (* CGEventCreateKeyboardEvent calls so far *)
  eventOk         : nat -> bool;            (* does the n-th such call succeed? *)
  sourceCalls     : nat;                    (* CGEventSourceCreate calls so far *)
  sourceOk        : nat -> bool;            (* does the n-th such call succeed? *)
  liveSources     : list nat;               (* sources created and not yet CFReleased *)
  gKeyboardSystem : option KeyboardInputSystem   (* the static pointer; None is nullptr *)
}.

Definition emit (e : Effect) (w : World) : World :=
  mkWorld (trace w ++ [e]) (eventCalls w) (eventOk w) (sourceCalls w)
          (sourceOk w) (liveSources w) (gKeyboardSystem w).

Definition set_gKeyboardSystem (g : option KeyboardInputSystem) (w : World)
  : World :=
  mkWorld (trace w) (eventCalls w) (eventOk w) (sourceCalls w)
          (sourceOk w) (liveSources w) g.

(** The key events posted so far, in order. *)
Fixpoint events_of (t : list Effect) : list CGEvent :=
  match t with
  | [] => []
  | Post e :: rest => e :: events_of rest
  | _ :: rest => events_of rest
  end.

Definition posted (w : World) : list CGEvent := events_of (trace w).

(** ** Platform calls *)

(** [CGEventSourceCreate(kCGEventSourceStateCombinedSessionState)] *)
Definition CGEventSourceCreate (w : World) : CGEventSourceRef * World :=
  let n := sourceCalls w in
  if sourceOk w n
  then (Some n,
        mkWorld (trace w) (eventCalls w) (eventOk w) (S n) (sourceOk w)
                (n :: liveSources w) (gKeyboardSystem w))
  else (None,
        mkWorld (trace w) (eventCalls w) (eventOk w) (S n) (sourceOk w)
                (liveSources w) (gKeyboardSystem w)).

(** [CFRelease(source)] of an event source. *)
Definition CFRelease_source (h : nat) (w : World) : World :=
  mkWorld (trace w) (eventCalls w) (eventOk w) (sourceCalls w) (sourceOk w)
          (List.remove Nat.eq_dec h (liveSources w)) (gKeyboardSystem w).

(** [CGEventCreateKeyboardEvent(source, keycode, keyDown)]; [NULL] when the
    platform refuses. *)
Definition CGEventCreateKeyboardEvent
  (source : CGEventSourceRef) (keycode : Z) (keyDown : bool) (w : World)
  : option CGEvent * World :=
  let n := eventCalls w in
  let w' := mkWorld (trace w) (S n) (eventOk w) (sourceCalls w) (sourceOk w)
                    (liveSources w) (gKeyboardSystem w) in
  if eventOk w n then (Some (mkEvent source keycode keyDown []), w')
  else (None, w').

(** The world after a keyboard event creation: only the call counter moves. *)
Definition bump_eventCalls (w : World) : World :=
  mkWorld (trace w) (S (eventCalls w)) (eventOk w) (sourceCalls w)
          (sourceOk w) (liveSources w) (gKeyboardSystem w).

(** [CGEventKeyboardSetUnicodeString(event, length, chars)] *)
Definition CGEventKeyboardSetUnicodeString
  (e : CGEvent) (length : nat) (chars : list Z) : CGEvent :=
  mkEvent (ev_source e) (ev_keycode e) (ev_keyDown e) (firstn length chars).

(** ** KeyboardInputSystem: construction and destruction *)

(** initialize() (ax-insert.cpp:38-42) *)
Definition initialize (self : KeyboardInputSystem) (w : World)
  : bool * KeyboardInputSystem * World :=
  let (src, w1) := CGEventSourceCreate w in
  let ok := match src with Some _ => true | None => false end in
  (ok, mkKeyboard src ok, w1).

(** The constructor (ax-insert.cpp:24-26). *)
Definition KeyboardInputSystem_new (w : World) : KeyboardInputSystem * World :=
  let '(_, self, w1) := initialize (mkKeyboard None false) w in (self, w1).

(** The destructor (ax-insert.cpp:28-32). *)
Definition KeyboardInputSystem_delete (self : KeyboardInputSystem) (w : World)
  : World :=
  match _source self with
  | Some h => CFRelease_source h w
  | None => w
  end.

(** getKeyboardSystem() (ax-insert.cpp:187-193) *)
Definition getKeyboardSystem (w : World) : KeyboardInputSystem * World :=
  match gKeyboardSystem w with
  | Some k => (k, w)
  | None =>
      let (k, w1) := KeyboardInputSystem_new w in
      (k, emit (Cout AxSystemInitialized) (set_gKeyboardSystem (Some k) w1))
  end.

(** cleanupKeyboardSystem() (ax-insert.cpp:198-203) *)
Definition cleanupKeyboardSystem (w : World) : World :=
  match gKeyboardSystem w with
  | Some k => set_gKeyboardSystem None (KeyboardInputSystem_delete k w)
  | None => w
  end.

(** ** KeyboardInputSystem: text input *)

Record LoopState : Type := mkLoop {
  position   : Z;
  chunkCount : Z;
  world      : World
}.

Inductive Step : Type :=
| Continue (st : LoopState)       (* the iteration ran to its end *)
| Break (result : bool) (w : World)   (* [return result] inside the loop *)
| Fault.                          (* undefined behaviour inside the iteration *)

Section Injector.

(** [CFStringCreateWithCString(kCFAllocatorDefault, s, kCFStringEncodingUTF8)]
    followed by [CFStringGetCharacters]: the UTF-16 code units of the C
    string [s], or [None] when no CFString can be created.  The conversion
    belongs to the platform; [utf8_to_utf16] below is the instance used for
    concrete runs. *)
Variable CFStringCreateWithCString : list byte -> option (list Z).

(** One turn of the [for] loop of inputUnicodeText (ax-insert.cpp:151-174). *)
Definition post_unichar (self : KeyboardInputSystem) (u : Z) (w : World)
  : World :=
  match CGEventCreateKeyboardEvent (_source self) 0 true w with
  | (Some unicodeEvent, w1) =>
      let w2 := emit (Post (CGEventKeyboardSetUnicodeString unicodeEvent 1 [u])) w1 in
      let w3 :=
        match CGEventCreateKeyboardEvent (_source self) 0 false w2 with
        | (Some unicodeEventUp, w3) =>
            emit (Post (CGEventKeyboardSetUnicodeString unicodeEventUp 1 [u])) w3
        | (None, w3) => w3
        end in
      emit (Usleep 5000) w3
  | (None, w1) => w1
  end.

Fixpoint post_unichars (self : KeyboardInputSystem) (unicodeChars : list Z)
  (w : World) : World :=
  match unicodeChars with
  | [] => w
  | u :: rest => post_unichars self rest (post_unichar self u w)
  end.

(** inputUnicodeText (ax-insert.cpp:131-178) *)
Definition inputUnicodeText (self : KeyboardInputSystem) (text : list byte)
  (w : World) : bool * World :=
  match CFStringCreateWithCString (c_str text) with
  | None => (false, emit (Cerr KbdCFStringFailed) w)
  | Some unicodeChars => (true, post_unichars self unicodeChars w)
  end.

(** inputTextInternal (ax-insert.cpp:126-129) *)
Definition inputTextInternal (self : KeyboardInputSystem) (text : list byte)
  (w : World) : bool * World :=
  inputUnicodeText self text w.

(** The body of the [while] loop of inputLargeTextOptimized
    (ax-insert.cpp:71-93), entered with [position < textLength]. *)
Definition chunk_step (self : KeyboardInputSystem) (text : list byte)
  (chunkSize : Z) (st : LoopState) : Step :=
  let textLength := len text in
  let remaining := size_sub textLength (position st) in
  let currentChunkSize := Z.min chunkSize remaining in
  match adjustChunkSize text (position st) currentChunkSize with
  | None => Fault
  | Some adjustedChunkSize =>
      let chunk := substr text (position st) adjustedChunkSize in
      if chunkSize =? 0 then Fault       (* division by zero in the log line *)
      else
        let w1 := emit (Cout (KbdChunk
                                (size_add (chunkCount st) 1)
                                (size_sub (size_add textLength chunkSize) 1 / chunkSize)
                                (position st) adjustedChunkSize)) (world st) in
        match inputTextInternal self chunk w1 with
        | (false, w2) => Break false (emit (Cerr KbdChunkFailed) w2)
        | (true, w2) =>
            let position' := size_add (position st) adjustedChunkSize in
            let w3 := if position' <? textLength
                      then emit (Usleep 100000) w2 else w2 in
            Continue (mkLoop position' (size_add (chunkCount st) 1) w3)
        end
  end.

Fixpoint chunk_loop (fuel : nat) (self : KeyboardInputSystem)
  (text : list byte) (chunkSize : Z) (st : LoopState)
  : Outcome (bool * World) :=
  if position st <? len text then
    match fuel with
    | O => OutOfFuel
    | S fuel' =>
        match chunk_step self text chunkSize st with
        | Continue st' => chunk_loop fuel' self text chunkSize st'
        | Break result w => Ret (result, w)
        | Fault => Undefined
        end
    end
  else Ret (true, world st).

(** inputLargeTextOptimized (ax-insert.cpp:65-97) *)
Definition inputLargeTextOptimized (fuel : nat) (self : KeyboardInputSystem)
  (text : list byte) (chunkSize : Z) (w : World) : Outcome (bool * World) :=
  chunk_loop fuel self text chunkSize (mkLoop 0 0 w).

(** inputLargeText (ax-insert.cpp:45-62) *)
Definition inputLargeText (fuel : nat) (self : KeyboardInputSystem)
  (text : list byte) (chunkSize : Z) (w : World) : Outcome (bool * World) :=
  if negb (_isInitialized self) then
    Ret (false, emit (Cerr KbdUninitialized) w)
  else
    match text with
    | [] => Ret (true, w)
    | _ :: _ =>
        if chunkSize <? len text
        then inputLargeTextOptimized fuel self text chunkSize w
        else Ret (inputTextInternal self text w)
    end.

(** The state the loop is in after [n] complete iterations, if it gets
    that far. *)
Fixpoint after_chunks (n : nat) (self : KeyboardInputSystem)
  (text : list byte) (chunkSize : Z) (st : LoopState) : option LoopState :=
  match n with
  | O => Some st
  | S n' =>
      if position st <? len text then
        match chunk_step self text chunkSize st with
        | Continue st' => after_chunks n' self text chunkSize st'
        | _ => None
        end
      else None
  end.

End Injector.

(** The default argument of inputLargeText. *)
Definition default_chunkSize : Z := 1000.

(** ** The chunk sequence on its own

    The chunks the loop of inputLargeTextOptimized cuts, in order, when no
    delivery stops it: the same positions, the same adjusted sizes and the
    same faults, with the platform left out ([chunk_loop_cuts_chunking]
    relates the two). *)
Fixpoint chunking (fuel : nat) (text : list byte) (chunkSize position : Z)
  : Outcome (list (list byte)) :=
  if position <? len text then
    match fuel with
    | O => OutOfFuel
    | S fuel' =>
        let remaining := size_sub (len text) position in
        let currentChunkSize := Z.min chunkSize remaining in
        match adjustChunkSize text position currentChunkSize with
        | None => Undefined
        | Some adjustedChunkSize =>
            if chunkSize =? 0 then Undefined
            else
              match chunking fuel' text chunkSize
                             (size_add position adjustedChunkSize) with
              | Ret rest => Ret (substr text position adjustedChunkSize :: rest)
              | OutOfFuel => OutOfFuel
              | Undefined => Undefined
              end
        end
    end
  else Ret [].

(** The chunks announced on [std::cout] by a run, read back from the trace. *)
Fixpoint logged_chunks (text : list byte) (t : list Effect)
  : list (list byte) :=
  match t with
  | [] => []
  | Cout (KbdChunk _ _ p s) :: rest => substr text p s :: logged_chunks text rest
  | _ :: rest => logged_chunks text rest
  end.

(** ** UTF-8 to UTF-16: the conversion used for concrete runs

    Well-formed UTF-8 as in the Unicode Standard (table 3-7): shortest
    form only, no surrogates, nothing above U+10FFFF.  A byte sequence that
    is not well formed, a truncated one included, has no conversion. *)

Definition is_continuation (b : byte) : bool :=
  Z.land (byteZ b) 0xC0 =? 0x80.

Definition in_range (lo hi : Z) (b : byte) : bool :=
  (lo <=? byteZ b) && (byteZ b <=? hi).

Definition low6 (b : byte) : Z := Z.land (byteZ b) 0x3F.

Fixpoint utf8_decode (bs : list byte) : option (list Z) :=
  match bs with
  | [] => Some []
  | b0 :: r0 =>
      if byteZ b0 <? 0x80 then
        option_map (cons (byteZ b0)) (utf8_decode r0)
      else if in_range 0xC2 0xDF b0 then
        match r0 with
        | b1 :: r1 =>
            if is_continuation b1 then
              option_map
                (cons (Z.shiftl (Z.land (byteZ b0) 0x1F) 6 + low6 b1))
                (utf8_decode r1)
            else None
        | _ => None
        end
      else if in_range 0xE0 0xEF b0 then
        match r0 with
        | b1 :: b2 :: r2 =>
            if in_range (if byteZ b0 =? 0xE0 then 0xA0 else 0x80)
                        (if byteZ b0 =? 0xED then 0x9F else 0xBF) b1
               && is_continuation b2 then
              option_map
                (cons (Z.shiftl (Z.land (byteZ b0) 0x0F) 12
                       + Z.shiftl (low6 b1) 6 + low6 b2))
                (utf8_decode r2)
            else None
        | _ => None
        end
      else if in_range 0xF0 0xF4 b0 then
        match r0 with
        | b1 :: b2 :: b3 :: r3 =>
            if in_range (if byteZ b0 =? 0xF0 then 0x90 else 0x80)
                        (if byteZ b0 =? 0xF4 then 0x8F else 0xBF) b1
               && is_continuation b2 && is_continuation b3 then
              option_map
                (cons (Z.shiftl (Z.land (byteZ b0) 0x07) 18
                       + Z.shiftl (low6 b1) 12
                       + Z.shiftl (low6 b2) 6 + low6 b3))
                (utf8_decode r3)
            else None
        | _ => None
        end
      else None
  end.

(** One scalar value as UTF-16: itself, or a surrogate pair. *)
Definition utf16_encode (cp : Z) : list Z :=
  if cp <? 0x10000 then [cp]
  else [0xD800 + Z.shiftr (cp - 0x10000) 10;
        0xDC00 + Z.land (cp - 0x10000) 0x3FF].

Definition utf8_to_utf16 (s : list byte) : option (list Z) :=
  option_map (flat_map utf16_encode) (utf8_decode s).

(** ** The N-API binding (namespace AxInsertBinding) *)

(** JavaScript values as the binding sees them.  A string is held as the
    bytes [Utf8Value()] returns for it. *)
#[warnings="-register-all"]
Inductive NapiValue : Type :=
| JsUndefined
| JsNull
| JsBoolean (b : bool)
| JsNumber (n : Z)
| JsString (utf8 : list byte)
| JsObject (fields : list (string * NapiValue)).

(** What a binding call leaves to JavaScript: the returned value and the
    exception thrown by [ThrowAsJavaScriptException], if any. *)
Record NapiReturn : Type := mkReturn {
  value     : NapiValue;
  exception : option (list byte)       (* message of the pending TypeError *)
}.

(** [obj.Get(key)]: the property, or undefined. *)
Fixpoint Get (fields : list (string * NapiValue)) (key : string) : NapiValue :=
  match fields with
  | [] => JsUndefined
  | (k, v) :: rest => if String.eqb k key then v else Get rest key
  end.

(** [obj.Set(key, v)] *)
Fixpoint Set_ (fields : list (string * NapiValue)) (key : string)
  (v : NapiValue) : list (string * NapiValue) :=
  match fields with
  | [] => [(key, v)]
  | (k, x) :: rest =>
      if String.eqb k key then (k, v) :: rest else (k, x) :: Set_ rest key v
  end.

(** [v.As<Napi::String>().Utf8Value()]; only a string has one. *)
Definition Utf8Value (v : NapiValue) : option (list byte) :=
  match v with
  | JsString s => Some s
  | _ => None
  end.

Module AxInsertBinding.

Section Binding.

Variable CFStringCreateWithCString : list byte -> option (list Z).

(** simulateKeyboardInput (ax-insert.cpp:242-263) *)
Definition simulateKeyboardInput (fuel : nat) (text : list byte) (w : World)
  : Outcome (bool * World) :=
  let w0 := emit (Cout (AxSimStart (len text))) w in
  let (keyboard, w1) := getKeyboardSystem w0 in
  if negb (_isInitialized keyboard) then
    Ret (false, emit (Cerr AxSimInitFailed) w1)
  else
    match inputLargeText CFStringCreateWithCString fuel keyboard text
                         default_chunkSize w1 with
    | Ret (success, w2) =>
        Ret (success,
             emit (if success then Cout AxSimOk else Cerr AxSimFailed) w2)
    | OutOfFuel => OutOfFuel
    | Undefined => Undefined
    end.

Definition method_keyboard : list byte := list_byte_of_string "keyboard".
Definition error_failed : list byte := list_byte_of_string "键盘模拟输入失败".
Definition error_argument : list byte :=
  list_byte_of_string "参数必须是对象 { text: string, targetApp?: string }".

(** The object built at ax-insert.cpp:228-233. *)
Definition result_object (success : bool) : NapiValue :=
  let method := if success then method_keyboard else [] in
  let result := [] in
  let result := Set_ result "success" (JsBoolean success) in
  let result := Set_ result "method" (JsString method) in
  let result := Set_ result "error"
                     (if success then JsNull else JsString error_failed) in
  JsObject result.

(** InsertText (ax-insert.cpp:210-236).  [info] is the argument list of the
    call.  A [text] or a [targetApp] that is present but is no string makes
    the string conversion of the binding library fail; what follows then
    depends on how that library was built and is left [Undefined]. *)
Definition InsertText (fuel : nat) (info : list NapiValue) (w : World)
  : Outcome (NapiReturn * World) :=
  match info with
  | JsObject args :: _ =>
      match Utf8Value (Get args "text") with
      | None => Undefined
      | Some text =>
          match (match Get args "targetApp" with
                 | JsUndefined => Some []
                 | v => Utf8Value v
                 end) with
          | None => Undefined
          | Some targetApp =>
              let w0 := emit (Cout (AxInsertStart (len text))) w in
              match simulateKeyboardInput fuel text w0 with
              | Ret (success, w1) =>
                  Ret (mkReturn (result_object success) None, w1)
              | OutOfFuel => OutOfFuel
              | Undefined => Undefined
              end
          end
      end
  | _ => Ret (mkReturn JsNull (Some error_argument), w)
  end.

End Binding.

End AxInsertBinding.

(** ** The lead-byte tests of adjustChunkSize, bit by bit *)

Definition bit (b : byte) (n : Z) : bool := Z.testbit (byteZ b) n.

(** 110xxxxx *)
Definition pattern_110 (b : byte) : bool :=
  bit b 7 && bit b 6 && negb (bit b 5).
(** 1110xxxx *)
Definition pattern_1110 (b : byte) : bool :=
  bit b 7 && bit b 6 && bit b 5 && negb (bit b 4).
(** 11110xxx *)
Definition pattern_11110 (b : byte) : bool :=
  bit b 7 && bit b 6 && bit b 5 && bit b 4 && negb (bit b 3).

Definition is_lead (b : byte) : bool :=
  pattern_110 b || pattern_1110 b || pattern_11110 b.

(** 999 one-byte characters followed by U+1F600 (F0 9F 98 80). *)
Definition text_999_then_4 : list byte :=
  repeat x61 999 ++ [xf0; x9f; x98; x80].


(** ** Concrete worlds and injectors for runs *)

(** A fresh process in which the platform grants every request. *)
Definition world_fresh : World :=
  mkWorld [] 0 (fun _ => true) 0 (fun _ => true) [] None.

(** A fresh process in which no event source can be created. *)
Definition world_no_session : World :=
  mkWorld [] 0 (fun _ => true) 0 (fun _ => false) [] None.

(** A fresh process in which the [n]-th keyboard event cannot be created. *)
Definition world_event_fails (n : nat) : World :=
  mkWorld [] 0 (fun k => negb (Nat.eqb k n)) 0 (fun _ => true) [] None.

(** An injector that holds source 0, and one that holds none. *)
Definition keyboard_ready : KeyboardInputSystem := mkKeyboard (Some 0%nat) true.
Definition keyboard_down : KeyboardInputSystem := mkKeyboard None false.

(** [extends w w']: [w'] has the trace of [w] with more effects after it. *)
Definition extends (w w' : World) : Prop :=
  exists t, trace w' = trace w ++ t.

(** ** Concrete texts *)

(** U+00E9 (C3 A9), one two-byte character. *)
Definition text_e_acute : list byte := [xc3; xa9].

(** 998 one-byte characters, U+4E2D (E4 B8 AD), one more one-byte character:
    1002 bytes, 1000 characters. *)
Definition text_998_then_3 : list byte :=
  repeat x61 998 ++ [xe4; xb8; xad; x62].

(** "abcdab", U+4E2D: with chunk size 4 the second chunk ends inside the
    three-byte character. *)
Definition text_short_split : list byte :=
  [x61; x62; x63; x64; x61; x62; xe4; xb8; xad].

(** "a", NUL, "b". *)
Definition text_with_nul : list byte := [x61; x00; x62].

(** ** checkPermissions (namespace AxInsertBinding, continued) *)

Module AxInsertPermissions.

Definition error_permission : list byte :=
  list_byte_of_string "需要辅助功能权限".
Definition error_platform : list byte :=
  list_byte_of_string "仅支持 macOS".

(** CheckPermissions (ax-insert.cpp:268-292).  [apple] says whether
    [__APPLE__] is defined. *)
Definition CheckPermissions (apple : bool) (info : list NapiValue) (w : World)
  : NapiValue * World :=
  let result := [] in
  if apple then
    match CGEventSourceCreate w with
    | (Some source, w1) =>
        let result := Set_ result "hasAccessibility" (JsBoolean true) in
        let result := Set_ result "error" JsNull in
        let w2 := emit (Cout AxPermissionGranted) w1 in
        (JsObject result, CFRelease_source source w2)
    | (None, w1) =>
        let result := Set_ result "hasAccessibility" (JsBoolean false) in
        let result := Set_ result "error" (JsString error_permission) in
        (JsObject result, emit (Cout AxPermissionDenied) w1)
    end
  else
    let result := Set_ result "hasAccessibility" (JsBoolean false) in
    let result := Set_ result "error" (JsString error_platform) in
    (JsObject result, w).

End AxInsertPermissions.

(** ** Vocabulary for the properties of whole runs *)

(** The effects of typing one code unit when both events are created. *)
Definition key_stroke (source : CGEventSourceRef) (u : Z) : list Effect :=
  [Post (mkEvent source 0 true [u]);
   Post (mkEvent source 0 false [u]);
   Usleep 5000].

(** The key-down / key-up pair for one code unit. *)
Definition key_pair (source : CGEventSourceRef) (u : Z) : list CGEvent :=
  [mkEvent source 0 true [u]; mkEvent source 0 false [u]].

(** The platform creates every keyboard event it is asked for. *)
Definition events_granted (w : World) : Prop :=
  forall n, eventOk w n = true.

(** A byte that is not NUL. *)
Definition not_nul (b : byte) : bool := negb (Byte.eqb b x00).

(** A one-byte UTF-8 character other than NUL (01..7F). *)
Definition plain_ascii (b : byte) : bool :=
  (0 <? byteZ b) && (byteZ b <? 0x80).

(** The number of inter-chunk delays ([usleep(100000)]) in a trace. *)
Fixpoint interchunk_sleeps (t : list Effect) : nat :=
  match t with
  | [] => 0
  | Usleep us :: rest =>
      if us =? 100000 then S (interchunk_sleeps rest)
      else interchunk_sleeps rest
  | _ :: rest => interchunk_sleeps rest
  end.

(** Nothing about event sources or the singleton differs between two worlds. *)
Definition same_sources (w w' : World) : Prop :=
  sourceCalls w' = sourceCalls w /\
  sourceOk w' = sourceOk w /\
  liveSources w' = liveSources w /\
  gKeyboardSystem w' = gKeyboardSystem w /\
  eventOk w' = eventOk w.

(** The bookkeeping of a world that the program itself has built: live
    sources were handed out by earlier calls, none is listed twice, and the
    singleton, if there is one, holds a live source exactly when it says it
    is initialized. *)
Definition world_ok (w : World) : Prop :=
  (forall h, In h (liveSources w) -> (h < sourceCalls w)%nat) /\
  NoDup (liveSources w) /\
  (forall k, gKeyboardSystem w = Some k ->
     match _source k with
     | Some h => In h (liveSources w) /\ _isInitialized k = true
     | None => _isInitialized k = false
     end).

(** A character of one or two UTF-8 bytes, NUL excluded: 01..7F, or a
    lead byte C2..DF followed by one continuation byte. *)
Definition is_char12 (c : list byte) : bool :=
  match c with
  | [b] => plain_ascii b
  | [l; t] => in_range 0xC2 0xDF l && is_continuation t
  | _ => false
  end.

(** The scalar value of such a character (U+0001 .. U+07FF). *)
Definition code_point12 (c : list byte) : Z :=
  match c with
  | [b] => byteZ b
  | [l; t] => Z.shiftl (Z.land (byteZ l) 0x1F) 6 + low6 t
  | _ => 0
  end.

(** "abcdab": two chunks at chunk size 4. *)
Definition text_abcdab : list byte := [x61; x62; x63; x64; x61; x62].

(** "a", U+00E9, "b", U+00E9, character by character. *)
Definition chars_a_e_b_e : list (list byte) :=
  [[x61]; [xc3; xa9]; [x62]; [xc3; xa9]].

(** ** Delivery of code units, stated on its own

    What typing [units] adds to the trace when [ok k] says whether the
    [k]-th keyboard event creation succeeds and [n] creations have been
    made before: a character whose key-down cannot be created leaves
    nothing; otherwise its key-down is posted, its key-up is posted if it
    can be created, and the 5 ms delay follows. *)
Fixpoint key_effects (ok : nat -> bool) (n : nat) (source : CGEventSourceRef)
  (units : list Z) : list Effect :=
  match units with
  | [] => []
  | u :: rest =>
      if ok n then
        (Post (mkEvent source 0 true [u])
         :: (if ok (S n) then [Post (mkEvent source 0 false [u])] else []))
        ++ Usleep 5000 :: key_effects ok (S (S n)) source rest
      else key_effects ok (S n) source rest
  end.

(** The number of creations made once [units] have been typed: one for a
    character whose key-down is refused, two for every other. *)
Fixpoint key_calls (ok : nat -> bool) (n : nat) (units : list Z) : nat :=
  match units with
  | [] => n
  | u :: rest =>
      if ok n then key_calls ok (S (S n)) rest else key_calls ok (S n) rest
  end.

(** Successive insertions: simulateKeyboardInput called for each text in
    turn, with the results in order. *)
Fixpoint simulate_each (cf : list byte -> option (list Z)) (fuel : nat)
  (texts : list (list byte)) (w : World) : Outcome (list bool * World) :=
  match texts with
  | [] => Ret ([], w)
  | text :: rest =>
      match AxInsertBinding.simulateKeyboardInput cf fuel text w with
      | Ret (success, w1) =>
          match simulate_each cf fuel rest w1 with
          | Ret (results, w2) => Ret (success :: results, w2)
          | OutOfFuel => OutOfFuel
          | Undefined => Undefined
          end
      | OutOfFuel => OutOfFuel
      | Undefined => Undefined
      end
  end.

(** "abc" *)
Definition text_abc : list byte := [x61; x62; x63].
(** * Properties *)

(** ** Arithmetic on [size_t] and string indexing *)

Lemma size_add_small (a b : Z) :
  0 <= a + b < size_max -> size_add a b = a + b.
Proof. intros H. unfold size_add. now apply Z.mod_small. Qed.

Lemma size_sub_small (a b : Z) :
  0 <= a - b < size_max -> size_sub a b = a - b.
Proof. intros H. unfold size_sub. now apply Z.mod_small. Qed.

Lemma len_nonneg (text : list byte) : 0 <= len text.
Proof. unfold len. lia. Qed.

Lemma string_at_inside (text : list byte) (i : Z) :
  0 <= i < len text ->
  exists c, string_at text i = Some c /\ nth_error text (Z.to_nat i) = Some c.
Proof.
  intros [Hlo Hhi]. unfold string_at.
  replace (0 <=? i) with true by (symmetry; now apply Z.leb_le).
  replace (i <? len text) with true by (symmetry; now apply Z.ltb_lt).
  cbn [andb].
  destruct (nth_error text (Z.to_nat i)) as [c|] eqn:E.
  - now exists c.
  - apply nth_error_None in E. unfold len in Hhi. lia.
Qed.

Lemma is_lead2_pattern (b : byte) : is_lead2 (byteZ b) = pattern_110 b.
Proof. destruct b; reflexivity. Qed.

Lemma is_lead3_pattern (b : byte) : is_lead3 (byteZ b) = pattern_1110 b.
Proof. destruct b; reflexivity. Qed.

Lemma is_lead4_pattern (b : byte) : is_lead4 (byteZ b) = pattern_11110 b.
Proof. destruct b; reflexivity. Qed.

(** adjustChunkSize at a boundary strictly inside the text. *)
Lemma adjustChunkSize_inside (text : list byte) (position chunkSize : Z) :
  len text < size_max ->
  0 <= position -> 1 <= chunkSize -> position + chunkSize < len text ->
  exists c,
    nth_error text (Z.to_nat (position + chunkSize - 1)) = Some c /\
    adjustChunkSize text position chunkSize
    = Some (if is_lead c then chunkSize - 1 else chunkSize).
Proof.
  intros Hmax Hpos Hcs Hend.
  destruct (string_at_inside text (position + chunkSize - 1)) as (c & Hat & Hnth);
    [lia|].
  exists c. split; [exact Hnth|].
  unfold adjustChunkSize.
  rewrite (size_add_small position chunkSize) by lia.
  replace (len text <=? position + chunkSize) with false
    by (symmetry; apply Z.leb_gt; lia).
  rewrite (size_sub_small (position + chunkSize) 1) by lia.
  rewrite Hat.
  rewrite (size_sub_small chunkSize 1) by lia.
  unfold is_lead.
  rewrite is_lead2_pattern, is_lead3_pattern, is_lead4_pattern.
  destruct (pattern_110 c), (pattern_1110 c), (pattern_11110 c); reflexivity.
Qed.

(** adjustChunkSize when the candidate boundary reaches the end of the text. *)
Lemma adjustChunkSize_at_end (text : list byte) (position chunkSize : Z) :
  len text < size_max ->
  0 <= position <= len text -> 0 <= chunkSize ->
  position + chunkSize < size_max ->
  len text <= position + chunkSize ->
  adjustChunkSize text position chunkSize = Some (len text - position).
Proof.
  intros Hmax Hpos Hcs Hno Hend. unfold adjustChunkSize.
  rewrite size_add_small by lia.
  replace (len text <=? position + chunkSize) with true
    by (symmetry; apply Z.leb_le; lia).
  now rewrite size_sub_small by lia.
Qed.

(** C4. At a candidate boundary strictly before the end of the text (chunk
    size at least one byte), the chunk length drops by exactly one byte
    when the byte just before the boundary is a 110xxxxx, 1110xxxx or
    11110xxx byte, and is unchanged otherwise.  For 999 one-byte characters
    followed by one 4-byte character and chunk size 1000, the first chunk is
    the 999 bytes and the second is the whole 4-byte character. *)
Theorem adjustChunkSize_backs_off_one_byte :
  (forall (text : list byte) (position chunkSize : Z),
      len text < size_max ->
      0 <= position -> 1 <= chunkSize -> position + chunkSize < len text ->
      exists lastByte,
        nth_error text (Z.to_nat (position + chunkSize - 1)) = Some lastByte /\
        adjustChunkSize text position chunkSize
        = Some (if is_lead lastByte then chunkSize - 1 else chunkSize))
  /\ adjustChunkSize text_999_then_4 0 1000 = Some 999
  /\ chunking 2 text_999_then_4 1000 0
     = Ret [repeat x61 999; [xf0; x9f; x98; x80]].
Proof.
  split; [exact adjustChunkSize_inside|].
  split; vm_compute; reflexivity.
Qed.

Lemma adjustChunkSize_backs_off_one_byte_witness :
  len [x61; xc3; xa9; x61] < size_max /\
  exists lastByte,
    nth_error [x61; xc3; xa9; x61] (Z.to_nat (0 + 2 - 1)) = Some lastByte /\
    adjustChunkSize [x61; xc3; xa9; x61] 0 2
    = Some (if is_lead lastByte then 2 - 1 else 2).
Proof.
  split; [reflexivity|].
  apply (proj1 adjustChunkSize_backs_off_one_byte [x61; xc3; xa9; x61] 0 2);
    vm_compute; congruence.
Defined.

(** ** The adjusted size inside the loop *)

(** In the loop, with a chunk size of at least one byte, adjustChunkSize is
    defined and gives the candidate size or one byte less, the latter only
    at a boundary strictly before the end. *)
Lemma adjusted_size_bounds (text : list byte) (chunkSize position : Z) :
  len text < size_max ->
  0 <= position < len text -> 1 <= chunkSize ->
  exists a,
    adjustChunkSize text position
                    (Z.min chunkSize (size_sub (len text) position)) = Some a /\
    position + a <= len text /\
    (a = len text - position \/ a = chunkSize \/
     (a = chunkSize - 1 /\ position + chunkSize < len text)).
Proof.
  intros Hmax Hpos Hcs.
  rewrite size_sub_small by lia.
  destruct (Z_lt_le_dec (position + Z.min chunkSize (len text - position))
                        (len text)) as [Hin|Hend].
  - assert (Hmin : Z.min chunkSize (len text - position) = chunkSize) by lia.
    rewrite Hmin in *.
    destruct (adjustChunkSize_inside text position chunkSize)
      as (c & _ & Hadj); try lia.
    rewrite Hadj. destruct (is_lead c); eexists; (split; [reflexivity|]); lia.
  - rewrite adjustChunkSize_at_end by lia.
    eexists; (split; [reflexivity|]); lia.
Qed.

(** With a chunk size of two bytes or more every chunk has a byte. *)
Lemma adjusted_size_positive (text : list byte) (chunkSize position : Z) :
  len text < size_max ->
  0 <= position < len text -> 2 <= chunkSize ->
  exists a,
    adjustChunkSize text position
                    (Z.min chunkSize (size_sub (len text) position)) = Some a /\
    1 <= a /\ position + a <= len text.
Proof.
  intros Hmax Hpos Hcs.
  destruct (adjusted_size_bounds text chunkSize position) as (a & Ha & Hle & Hc);
    try lia.
  exists a. split; [exact Ha|]. lia.
Qed.

(** ** The chunk sequence *)

Lemma substr_then_rest (text : list byte) (position a : Z) :
  0 <= position -> 0 <= a ->
  substr text position a ++ skipn (Z.to_nat (position + a)) text
  = skipn (Z.to_nat position) text.
Proof.
  intros Hp Ha. unfold substr.
  replace (Z.to_nat (position + a)) with (Z.to_nat a + Z.to_nat position)%nat
    by lia.
  rewrite <- skipn_skipn. apply firstn_skipn.
Qed.

Lemma substr_nonempty (text : list byte) (position a : Z) :
  0 <= position -> 1 <= a -> position + a <= len text ->
  substr text position a <> [].
Proof.
  intros Hp Ha Hle Hnil.
  apply (f_equal (@List.length byte)) in Hnil.
  unfold substr in Hnil. rewrite length_firstn, length_skipn in Hnil.
  unfold len in Hle. cbn [List.length] in Hnil. lia.
Qed.

(** For a chunk size of two bytes or more the loop cuts the rest of the
    text into non-empty chunks within [len text - position] iterations. *)
Lemma chunking_from (text : list byte) (chunkSize : Z) :
  len text < size_max -> 2 <= chunkSize ->
  forall (fuel : nat) (position : Z),
    0 <= position <= len text ->
    len text - position <= Z.of_nat fuel ->
    exists chunks,
      chunking fuel text chunkSize position = Ret chunks /\
      List.concat chunks = skipn (Z.to_nat position) text /\
      Forall (fun c => c <> []) chunks.
Proof.
  intros Hmax Hcs. induction fuel as [|fuel IH]; intros position Hpos Hfuel.
  - assert (position = len text) by lia. subst position.
    exists []. cbn [chunking]. rewrite Z.ltb_irrefl.
    repeat split; [|constructor].
    cbn [List.concat]. symmetry. apply skipn_all2. unfold len. lia.
  - cbn [chunking]. destruct (position <? len text) eqn:Hlt.
    + apply Z.ltb_lt in Hlt.
      destruct (adjusted_size_positive text chunkSize position)
        as (a & Ha & Ha1 & Hle); try lia.
      rewrite Ha.
      replace (chunkSize =? 0) with false by (symmetry; apply Z.eqb_neq; lia).
      rewrite size_add_small by lia.
      destruct (IH (position + a)) as (rest & Hrest & Hcat & Hne); try lia.
      rewrite Hrest. exists (substr text position a :: rest).
      split; [reflexivity|]. split.
      * cbn [List.concat]. rewrite Hcat. apply substr_then_rest; lia.
      * constructor; [|exact Hne]. apply substr_nonempty; lia.
    + apply Z.ltb_ge in Hlt. assert (position = len text) by lia.
      subst position. exists [].
      repeat split; [|constructor].
      cbn [List.concat]. symmetry. apply skipn_all2. unfold len. lia.
Qed.

(** Round trip for chunk sizes of two bytes or more. *)
Lemma chunking_round_trip (text : list byte) (chunkSize : Z) :
  len text < size_max -> 2 <= chunkSize ->
  exists chunks,
    chunking (List.length text) text chunkSize 0 = Ret chunks /\
    List.concat chunks = text /\
    Forall (fun c => c <> []) chunks.
Proof.
  intros Hmax Hcs.
  destruct (chunking_from text chunkSize Hmax Hcs (List.length text) 0)
    as (chunks & H1 & H2 & H3).
  - pose proof (len_nonneg text). lia.
  - unfold len. lia.
  - exists chunks. now repeat split.
Qed.

(** More fuel does not change a result. *)
Lemma chunking_more_fuel (text : list byte) (chunkSize : Z) :
  forall (fuel : nat) (position : Z) (chunks : list (list byte)),
    chunking fuel text chunkSize position = Ret chunks ->
    forall extra, chunking (fuel + extra) text chunkSize position = Ret chunks.
Proof.
  induction fuel as [|fuel IH]; intros position chunks H extra.
  - cbn [chunking] in H. destruct (position <? len text) eqn:Hlt; [discriminate|].
    destruct (0 + extra)%nat; cbn [chunking]; now rewrite Hlt.
  - cbn [Nat.add chunking] in *. destruct (position <? len text); [|exact H].
    destruct (adjustChunkSize _ _ _) as [a|]; [|discriminate].
    destruct (chunkSize =? 0); [discriminate|].
    destruct (chunking fuel text chunkSize (size_add position a)) as [rest| |] eqn:E;
      try discriminate.
    now rewrite (IH _ _ E extra).
Qed.

(** ** Traces *)

Lemma events_of_app (a b : list Effect) :
  events_of (a ++ b) = events_of a ++ events_of b.
Proof.
  induction a as [|e a IH]; [reflexivity|].
  destruct e; cbn [app events_of]; now rewrite IH.
Qed.

Lemma posted_emit_Post (e : CGEvent) (w : World) :
  posted (emit (Post e) w) = posted w ++ [e].
Proof. unfold posted, emit. cbn [trace]. now rewrite events_of_app. Qed.

Lemma posted_emit_silent (e : Effect) (w : World) :
  (forall ev, e <> Post ev) -> posted (emit e w) = posted w.
Proof.
  intros H. unfold posted, emit. cbn [trace]. rewrite events_of_app.
  destruct e; cbn [events_of]; try now rewrite app_nil_r.
  now contradiction (H e).
Qed.

Lemma logged_chunks_app (text : list byte) (a b : list Effect) :
  logged_chunks text (a ++ b) = logged_chunks text a ++ logged_chunks text b.
Proof.
  induction a as [|e a IH]; [reflexivity|].
  destruct e as [ev|us|l|l]; cbn [app logged_chunks]; try exact IH.
  destruct l; cbn [app]; now rewrite ?IH.
Qed.

Section InjectorProperties.

Variable cf : list byte -> option (list Z).

(** ** Delivery of one chunk *)

Lemma inputUnicodeText_decoded self text units w :
  cf (c_str text) = Some units ->
  inputUnicodeText cf self text w = (true, post_unichars self units w).
Proof. intros H. unfold inputUnicodeText. now rewrite H. Qed.

Lemma inputUnicodeText_undecodable self text w :
  cf (c_str text) = None ->
  inputUnicodeText cf self text w = (false, emit (Cerr KbdCFStringFailed) w).
Proof. intros H. unfold inputUnicodeText. now rewrite H. Qed.

Lemma inputUnicodeText_false_iff self text w :
  fst (inputUnicodeText cf self text w) = false <-> cf (c_str text) = None.
Proof.
  unfold inputUnicodeText.
  destruct (cf (c_str text)); cbn [fst]; split; congruence.
Qed.

Lemma post_unichar_no_keydown self u w :
  eventOk w (eventCalls w) = false ->
  post_unichar self u w = bump_eventCalls w.
Proof.
  intros H. unfold post_unichar, CGEventCreateKeyboardEvent.
  now rewrite H.
Qed.

Lemma post_unichar_no_keyup self u w :
  eventOk w (eventCalls w) = true ->
  eventOk w (S (eventCalls w)) = false ->
  trace (post_unichar self u w)
  = trace w ++ [Post (mkEvent (_source self) 0 true [u]); Usleep 5000].
Proof.
  intros H1 H2. unfold post_unichar, CGEventCreateKeyboardEvent.
  rewrite H1. cbn. rewrite H2. cbn. now rewrite <- app_assoc.
Qed.

Lemma post_unichar_pair self u w :
  eventOk w (eventCalls w) = true ->
  eventOk w (S (eventCalls w)) = true ->
  trace (post_unichar self u w)
  = trace w ++ [Post (mkEvent (_source self) 0 true [u]);
                Post (mkEvent (_source self) 0 false [u]);
                Usleep 5000].
Proof.
  intros H1 H2. unfold post_unichar, CGEventCreateKeyboardEvent.
  rewrite H1. cbn. rewrite H2. cbn. now rewrite <- !app_assoc.
Qed.

Lemma key_effects_app ok source before :
  forall n after,
    key_effects ok n source (before ++ after)
    = key_effects ok n source before
      ++ key_effects ok (key_calls ok n before) source after.
Proof.
  induction before as [|u before IH]; intros n after; [reflexivity|].
  cbn [app key_effects key_calls]. destruct (ok n).
  - rewrite IH. cbn [app]. now rewrite <- !app_assoc.
  - apply IH.
Qed.

(** The trace and the creation count after the [for] loop, for any
    platform. *)
Lemma post_unichars_effects self units :
  forall w,
    trace (post_unichars self units w)
    = trace w ++ key_effects (eventOk w) (eventCalls w) (_source self) units /\
    eventCalls (post_unichars self units w)
    = key_calls (eventOk w) (eventCalls w) units /\
    eventOk (post_unichars self units w) = eventOk w.
Proof.
  induction units as [|u rest IH]; intros w;
    cbn [post_unichars key_effects key_calls].
  - rewrite app_nil_r. now repeat split.
  - destruct (IH (post_unichar self u w)) as (Ht & Hc & Ho).
    rewrite Ht, Hc, Ho. clear IH Ht Hc Ho.
    unfold post_unichar, CGEventCreateKeyboardEvent.
    destruct (eventOk w (eventCalls w)) eqn:Hdown; cbn.
    + destruct (eventOk w (S (eventCalls w))) eqn:Hup; cbn;
        rewrite <- !app_assoc; now repeat split.
    + now repeat split.
Qed.

(** C10. A chunk whose bytes decode, to any number of code units, is
    delivered with success, whatever events the platform refuses, so a
    chunk fails only when it does not decode.  The delivery adds to the
    trace exactly this: a character whose key-down event cannot be created
    leaves nothing at all (no post, no delay), wherever it stands in the
    chunk; one whose key-down is created and whose key-up is not leaves
    the key-down without key-up, followed by the delay; the characters
    before and after are typed as they would be otherwise. *)
Theorem inputUnicodeText_fails_only_on_decoding :
  (forall self text units w,
      cf (c_str text) = Some units ->
      exists w',
        inputUnicodeText cf self text w = (true, w') /\
        trace w'
        = trace w
          ++ key_effects (eventOk w) (eventCalls w) (_source self) units /\
        eventCalls w' = key_calls (eventOk w) (eventCalls w) units)
  /\ (forall self text w,
      fst (inputUnicodeText cf self text w) = false <-> cf (c_str text) = None)
  /\ (forall self text before u after w,
      cf (c_str text) = Some (before ++ u :: after) ->
      eventOk w (key_calls (eventOk w) (eventCalls w) before) = false ->
      exists w',
        inputUnicodeText cf self text w = (true, w') /\
        trace w'
        = trace w
          ++ key_effects (eventOk w) (eventCalls w) (_source self) before
          ++ key_effects (eventOk w)
               (S (key_calls (eventOk w) (eventCalls w) before))
               (_source self) after)
  /\ (forall self text before u after w,
      cf (c_str text) = Some (before ++ u :: after) ->
      eventOk w (key_calls (eventOk w) (eventCalls w) before) = true ->
      eventOk w (S (key_calls (eventOk w) (eventCalls w) before)) = false ->
      exists w',
        inputUnicodeText cf self text w = (true, w') /\
        trace w'
        = trace w
          ++ key_effects (eventOk w) (eventCalls w) (_source self) before
          ++ [Post (mkEvent (_source self) 0 true [u]); Usleep 5000]
          ++ key_effects (eventOk w)
               (S (S (key_calls (eventOk w) (eventCalls w) before)))
               (_source self) after).
Proof.
  assert (Hrun : forall self text units w,
             cf (c_str text) = Some units ->
             exists w',
               inputUnicodeText cf self text w = (true, w') /\
               trace w'
               = trace w
                 ++ key_effects (eventOk w) (eventCalls w) (_source self) units /\
               eventCalls w' = key_calls (eventOk w) (eventCalls w) units).
  { intros self text units w Hcf.
    exists (post_unichars self units w).
    destruct (post_unichars_effects self units w) as (Ht & Hc & _).
    split; [now apply inputUnicodeText_decoded|]. now split. }
  split; [exact Hrun|]. split; [exact inputUnicodeText_false_iff|]. split.
  - intros self text before u after w Hcf Hdown.
    destruct (Hrun self text _ w Hcf) as (w' & Hw' & Ht & _).
    exists w'. split; [exact Hw'|]. rewrite Ht, key_effects_app.
    cbn [key_effects]. now rewrite Hdown.
  - intros self text before u after w Hcf Hdown Hup.
    destruct (Hrun self text _ w Hcf) as (w' & Hw' & Ht & _).
    exists w'. split; [exact Hw'|]. rewrite Ht, key_effects_app.
    cbn [key_effects]. now rewrite Hdown, Hup.
Qed.

(** ** Effects only accumulate *)

Lemma extends_refl w : extends w w.
Proof. exists []. now rewrite app_nil_r. Qed.

Lemma extends_trans w1 w2 w3 : extends w1 w2 -> extends w2 w3 -> extends w1 w3.
Proof.
  intros [t1 H1] [t2 H2]. exists (t1 ++ t2). now rewrite H2, H1, app_assoc.
Qed.

Lemma extends_emit e w : extends w (emit e w).
Proof. now exists [e]. Qed.

Lemma extends_posted w w' :
  extends w w' -> exists more, posted w' = posted w ++ more.
Proof.
  intros [t H]. exists (events_of t). unfold posted.
  now rewrite H, events_of_app.
Qed.

Lemma extends_post_unichar self u w : extends w (post_unichar self u w).
Proof.
  unfold post_unichar, CGEventCreateKeyboardEvent.
  destruct (eventOk w (eventCalls w)).
  - cbn. destruct (eventOk w (S (eventCalls w))); cbn;
      eexists; cbn; now rewrite <- !app_assoc.
  - exists []. cbn. now rewrite app_nil_r.
Qed.

Lemma extends_post_unichars self units :
  forall w, extends w (post_unichars self units w).
Proof.
  induction units as [|u rest IH]; intros w; cbn [post_unichars].
  - apply extends_refl.
  - eapply extends_trans; [apply extends_post_unichar|apply IH].
Qed.

Lemma extends_inputTextInternal self text w :
  extends w (snd (inputTextInternal cf self text w)).
Proof.
  unfold inputTextInternal, inputUnicodeText.
  destruct (cf (c_str text)); cbn [snd].
  - apply extends_post_unichars.
  - apply extends_emit.
Qed.

(** Delivering a chunk writes no chunk announcement. *)
Lemma post_unichar_quiet text self u w :
  logged_chunks text (trace (post_unichar self u w))
  = logged_chunks text (trace w).
Proof.
  unfold post_unichar, CGEventCreateKeyboardEvent.
  destruct (eventOk w (eventCalls w)); [|reflexivity].
  cbn. destruct (eventOk w (S (eventCalls w))); cbn;
    rewrite !logged_chunks_app; cbn; now rewrite !app_nil_r.
Qed.

Lemma post_unichars_quiet text self units :
  forall w, logged_chunks text (trace (post_unichars self units w))
            = logged_chunks text (trace w).
Proof.
  induction units as [|u rest IH]; intros w; cbn [post_unichars];
    [reflexivity|].
  now rewrite IH, post_unichar_quiet.
Qed.

Lemma inputTextInternal_quiet text self chunk w :
  logged_chunks text (trace (snd (inputTextInternal cf self chunk w)))
  = logged_chunks text (trace w).
Proof.
  unfold inputTextInternal, inputUnicodeText.
  destruct (cf (c_str chunk)); cbn [snd].
  - apply post_unichars_quiet.
  - unfold emit. cbn [trace]. rewrite logged_chunks_app. cbn.
    now rewrite app_nil_r.
Qed.

(** A chunk that does not decode posts nothing. *)
Lemma inputTextInternal_failure self text w w' :
  inputTextInternal cf self text w = (false, w') -> posted w' = posted w.
Proof.
  unfold inputTextInternal, inputUnicodeText.
  destruct (cf (c_str text)); [discriminate|].
  intros H. injection H as <-. apply posted_emit_silent. discriminate.
Qed.

(** Failure of a delivery depends on the chunk alone. *)
Lemma inputTextInternal_failure_any_world self text w1 w2 :
  fst (inputTextInternal cf self text w1) = false ->
  fst (inputTextInternal cf self text w2) = false.
Proof.
  unfold inputTextInternal. rewrite !inputUnicodeText_false_iff. auto.
Qed.

(** ** One iteration of the chunk loop *)

Lemma chunk_step_Continue self text chunkSize st st' :
  chunk_step cf self text chunkSize st = Continue st' ->
  extends (world st) (world st') /\
  exists a,
    adjustChunkSize text (position st)
      (Z.min chunkSize (size_sub (len text) (position st))) = Some a /\
    position st' = size_add (position st) a /\
    logged_chunks text (trace (world st'))
    = logged_chunks text (trace (world st)) ++ [substr text (position st) a].
Proof.
  unfold chunk_step.
  destruct (adjustChunkSize _ _ _) as [a|]; [|discriminate].
  destruct (chunkSize =? 0); [discriminate|].
  match goal with |- context [inputTextInternal cf self ?c ?w] =>
    pose proof (extends_inputTextInternal self c w) as Hext;
    pose proof (inputTextInternal_quiet text self c w) as Hlog;
    destruct (inputTextInternal cf self c w) as [[|] w2] end;
    [|discriminate].
  cbn [snd] in Hext, Hlog. intros H. injection H as <-. cbn [world position].
  split.
  - eapply extends_trans; [apply extends_emit|].
    eapply extends_trans; [exact Hext|].
    destruct (_ <? _); [apply extends_emit|apply extends_refl].
  - exists a. repeat split.
    assert (Hw2 : logged_chunks text (trace w2)
                  = logged_chunks text (trace (world st))
                    ++ [substr text (position st) a]).
    { rewrite Hlog. unfold emit. cbn [trace].
      now rewrite logged_chunks_app. }
    destruct (_ <? _); [|exact Hw2].
    unfold emit. cbn [trace]. rewrite logged_chunks_app, Hw2.
    cbn [logged_chunks]. now rewrite app_nil_r.
Qed.

Lemma chunk_step_Break self text chunkSize st result w' :
  chunk_step cf self text chunkSize st = Break result w' ->
  result = false /\ posted w' = posted (world st).
Proof.
  unfold chunk_step.
  destruct (adjustChunkSize _ _ _) as [a|]; [|discriminate].
  destruct (chunkSize =? 0); [discriminate|].
  match goal with |- context [inputTextInternal cf self ?c ?w] =>
    pose proof (inputTextInternal_failure self c w) as Hfail;
    destruct (inputTextInternal cf self c w) as [[|] w2] end;
    [discriminate|].
  intros H. injection H as <- <-. split; [reflexivity|].
  rewrite posted_emit_silent by discriminate.
  rewrite (Hfail w2 eq_refl). apply posted_emit_silent. discriminate.
Qed.

(** A chunk whose delivery fails ends the iteration with [return false]. *)
Lemma chunk_step_failing_chunk self text chunkSize st a w1 :
  chunkSize <> 0 ->
  adjustChunkSize text (position st)
    (Z.min chunkSize (size_sub (len text) (position st))) = Some a ->
  fst (inputTextInternal cf self (substr text (position st) a) w1) = false ->
  exists w', chunk_step cf self text chunkSize st = Break false w'.
Proof.
  intros Hcs Ha Hfail. unfold chunk_step. rewrite Ha.
  replace (chunkSize =? 0) with false by (symmetry; now apply Z.eqb_neq).
  match goal with |- context [inputTextInternal cf self ?c ?w] =>
    pose proof (inputTextInternal_failure_any_world self c w1 w Hfail) as Hf;
    destruct (inputTextInternal cf self c w) as [[|] w2] end;
    [discriminate|].
  now eexists.
Qed.

(** ** The chunk loop as a whole *)

Lemma chunk_loop_after_chunks self text chunkSize :
  forall n st0 st fuel,
    after_chunks cf n self text chunkSize st0 = Some st ->
    chunk_loop cf (n + fuel) self text chunkSize st0
    = chunk_loop cf fuel self text chunkSize st.
Proof.
  induction n as [|n IH]; intros st0 st fuel H.
  - cbn in H. injection H as <-. reflexivity.
  - cbn [after_chunks] in H. cbn [Nat.add chunk_loop].
    destruct (position st0 <? len text); [|discriminate].
    destruct (chunk_step cf self text chunkSize st0) as [st1| |];
      try discriminate.
    now apply IH.
Qed.

Lemma after_chunks_extends self text chunkSize :
  forall n st0 st,
    after_chunks cf n self text chunkSize st0 = Some st ->
    extends (world st0) (world st).
Proof.
  induction n as [|n IH]; intros st0 st H.
  - cbn in H. injection H as <-. apply extends_refl.
  - cbn [after_chunks] in H.
    destruct (position st0 <? len text); [|discriminate].
    destruct (chunk_step cf self text chunkSize st0) as [st1| |] eqn:E;
      try discriminate.
    eapply extends_trans; [|apply (IH _ _ H)].
    now apply (chunk_step_Continue _ _ _ _ _ E).
Qed.

(** A run that returns success has announced, in order, exactly the chunks
    of [chunking]. *)
Lemma chunk_loop_cuts_chunking self text chunkSize :
  forall (fuel : nat) (st : LoopState) (w' : World),
    chunk_loop cf fuel self text chunkSize st = Ret (true, w') ->
    exists chunks,
      chunking fuel text chunkSize (position st) = Ret chunks /\
      logged_chunks text (trace w')
      = logged_chunks text (trace (world st)) ++ chunks.
Proof.
  induction fuel as [|fuel IH]; intros st w' H.
  - cbn [chunk_loop chunking] in *.
    destruct (position st <? len text); [discriminate|].
    injection H as <-. exists []. now rewrite app_nil_r.
  - cbn [chunk_loop chunking] in *.
    destruct (position st <? len text).
    + destruct (chunk_step cf self text chunkSize st) as [st'|r w2|] eqn:E;
        [| |discriminate].
      * destruct (chunk_step_Continue _ _ _ _ _ E) as (_ & a & Ha & Hp & Hlog).
        rewrite Ha.
        assert (Hcs : (chunkSize =? 0) = false).
        { unfold chunk_step in E. rewrite Ha in E.
          destruct (chunkSize =? 0); [discriminate|reflexivity]. }
        rewrite Hcs. destruct (IH st' w' H) as (rest & Hrest & Hrun).
        rewrite <- Hp, Hrest. eexists. split; [reflexivity|].
        now rewrite Hrun, Hlog, <- app_assoc.
      * destruct (chunk_step_Break _ _ _ _ _ _ E) as [-> _]. discriminate.
    + injection H as <-. exists []. now rewrite app_nil_r.
Qed.

(** For a chunk size of two bytes or more the loop returns within
    [len text - position] iterations. *)
Lemma chunk_loop_returns self text chunkSize :
  len text < size_max -> 2 <= chunkSize ->
  forall (fuel : nat) (st : LoopState),
    0 <= position st <= len text ->
    len text - position st <= Z.of_nat fuel ->
    exists result w',
      chunk_loop cf fuel self text chunkSize st = Ret (result, w') /\
      extends (world st) w'.
Proof.
  intros Hmax Hcs. induction fuel as [|fuel IH]; intros st Hpos Hfuel.
  - cbn [chunk_loop].
    replace (position st <? len text) with false
      by (symmetry; apply Z.ltb_ge; lia).
    do 2 eexists. split; [reflexivity|apply extends_refl].
  - cbn [chunk_loop]. destruct (position st <? len text) eqn:Hlt.
    + apply Z.ltb_lt in Hlt.
      destruct (chunk_step cf self text chunkSize st) as [st'|r w'|] eqn:E.
      * destruct (chunk_step_Continue _ _ _ _ _ E) as (Hext & a & Ha & Hp & _).
        destruct (adjusted_size_positive text chunkSize (position st))
          as (a' & Ha' & Ha1 & Hle); try lia.
        rewrite Ha in Ha'. injection Ha' as <-.
        rewrite size_add_small in Hp by lia.
        destruct (IH st') as (r & w' & Hr & Hext'); try lia.
        exists r, w'. split; [exact Hr|]. eapply extends_trans; eauto.
      * exists r, w'. split; [reflexivity|].
        unfold chunk_step in E.
        destruct (adjustChunkSize _ _ _) as [a|]; [|discriminate].
        destruct (chunkSize =? 0); [discriminate|].
        match type of E with context [inputTextInternal cf self ?c ?w] =>
          pose proof (extends_inputTextInternal self c w) as Hext;
          destruct (inputTextInternal cf self c w) as [[|] w2] end;
          [discriminate|].
        injection E as <- <-. cbn [snd] in Hext.
        eapply extends_trans; [apply extends_emit|].
        eapply extends_trans; [exact Hext|apply extends_emit].
      * exfalso. unfold chunk_step in E.
        destruct (adjusted_size_positive text chunkSize (position st))
          as (a' & Ha' & _); try lia.
        rewrite Ha' in E.
        replace (chunkSize =? 0) with false in E
          by (symmetry; apply Z.eqb_neq; lia).
        destruct (inputTextInternal cf self _ _) as [[|] w2]; discriminate.
    + do 2 eexists. split; [reflexivity|apply extends_refl].
Qed.

(** inputLargeText returns, for every chunk size of two bytes or more,
    within [length text] iterations. *)
Lemma inputLargeText_returns self text chunkSize w fuel :
  len text < size_max -> 2 <= chunkSize ->
  (List.length text <= fuel)%nat ->
  exists result w',
    inputLargeText cf fuel self text chunkSize w
    = Ret (result, w') /\ extends w w'.
Proof.
  intros Hmax Hcs Hfuel. unfold inputLargeText.
  destruct (negb (_isInitialized self)).
  { do 2 eexists. split; [reflexivity|apply extends_emit]. }
  destruct text as [|b text'] eqn:Et.
  { do 2 eexists. split; [reflexivity|apply extends_refl]. }
  rewrite <- Et in *. destruct (chunkSize <? len text).
  - unfold inputLargeTextOptimized.
    apply (chunk_loop_returns self text chunkSize Hmax Hcs
             fuel (mkLoop 0 0 w)); cbn [position].
    + pose proof (len_nonneg text). lia.
    + unfold len. lia.
  - pose proof (extends_inputTextInternal self text w) as Hext.
    destruct (inputTextInternal cf self text w) as [r w'].
    exists r, w'. now split.
Qed.

(** C6. In a multi-chunk insertion, when the loop has delivered [n] chunks
    and the delivery of the next one fails (as it does when the chunk does
    not decode), the call returns failure; the events posted are exactly
    those posted before the failing chunk, which begin with all that was
    posted before the call: nothing is posted afterwards and nothing
    posted earlier is taken back. *)
Theorem failed_chunk_aborts_without_rollback :
  (forall self chunk w,
      cf (c_str chunk) = None ->
      fst (inputTextInternal cf self chunk w) = false)
  /\
  (forall self text chunkSize n fuel w0 st a w1,
      _isInitialized self = true ->
      1 <= chunkSize < len text ->
      after_chunks cf n self text chunkSize (mkLoop 0 0 w0) = Some st ->
      position st < len text ->
      adjustChunkSize text (position st)
        (Z.min chunkSize (size_sub (len text) (position st))) = Some a ->
      fst (inputTextInternal cf self (substr text (position st) a) w1) = false ->
      exists w',
        inputLargeText cf (n + S fuel) self text chunkSize w0 = Ret (false, w') /\
        posted w' = posted (world st) /\
        exists earlier, posted (world st) = posted w0 ++ earlier).
Proof.
  split.
  { intros self chunk w H. unfold inputTextInternal.
    now apply inputUnicodeText_false_iff. }
  intros self text chunkSize n fuel w0 st a w1 Hinit Hcs Hafter Hpos Ha Hfail.
  destruct (chunk_step_failing_chunk self text chunkSize st a w1)
    as (w' & Hstep); [lia|exact Ha|exact Hfail|].
  exists w'. split; [|split].
  - unfold inputLargeText. rewrite Hinit. cbn [negb].
    destruct text as [|b text'] eqn:Et; [cbn in Hcs; lia|].
    rewrite <- Et in *.
    replace (chunkSize <? len text) with true by (symmetry; apply Z.ltb_lt; lia).
    unfold inputLargeTextOptimized.
    rewrite (chunk_loop_after_chunks self text chunkSize n _ st (S fuel) Hafter).
    cbn [chunk_loop].
    replace (position st <? len text) with true
      by (symmetry; now apply Z.ltb_lt).
    now rewrite Hstep.
  - now apply (chunk_step_Break self text chunkSize st false w' Hstep).
  - apply extends_posted.
    apply (after_chunks_extends self text chunkSize n (mkLoop 0 0 w0) st Hafter).
Qed.

(** ** The singleton accessor *)

Lemma getKeyboardSystem_posted w :
  posted (snd (getKeyboardSystem w)) = posted w.
Proof.
  unfold getKeyboardSystem. destruct (gKeyboardSystem w); [reflexivity|].
  unfold KeyboardInputSystem_new, initialize, CGEventSourceCreate.
  destruct (sourceOk w (sourceCalls w)); cbn [snd];
    rewrite posted_emit_silent by discriminate; reflexivity.
Qed.

(** C5. Called on an injector that is not initialized, inputLargeText
    returns failure at once for every text: it writes the line that names
    the uninitialized state and posts no event.  simulateKeyboardInput
    likewise returns failure without posting when the singleton is not
    initialized. *)
Theorem uninitialized_injector_posts_nothing :
  (forall fuel self text chunkSize w,
      _isInitialized self = false ->
      inputLargeText cf fuel self text chunkSize w
      = Ret (false, emit (Cerr KbdUninitialized) w) /\
      trace (emit (Cerr KbdUninitialized) w)
      = trace w ++ [Cerr KbdUninitialized] /\
      posted (emit (Cerr KbdUninitialized) w) = posted w)
  /\
  (forall fuel text w,
      _isInitialized
        (fst (getKeyboardSystem (emit (Cout (AxSimStart (len text))) w)))
      = false ->
      exists w',
        AxInsertBinding.simulateKeyboardInput cf fuel text w = Ret (false, w') /\
        posted w' = posted w).
Proof.
  split.
  - intros fuel self text chunkSize w H. unfold inputLargeText. rewrite H.
    cbn [negb]. repeat split. apply posted_emit_silent. discriminate.
  - intros fuel text w H. unfold AxInsertBinding.simulateKeyboardInput.
    pose proof (getKeyboardSystem_posted
                  (emit (Cout (AxSimStart (len text))) w)) as Hp.
    destruct (getKeyboardSystem _) as [keyboard w1].
    cbn [fst snd] in H, Hp. rewrite H. cbn [negb].
    eexists. split; [reflexivity|].
    rewrite posted_emit_silent by discriminate. rewrite Hp.
    apply posted_emit_silent. discriminate.
Qed.

(** C8. The chunk loop cuts the empty text into no chunk at all, and
    inputLargeText on the empty string, with the injector initialized,
    returns success and leaves the world as it was: no event is posted. *)
Theorem empty_text_is_a_no_op :
  (forall fuel chunkSize, chunking fuel [] chunkSize 0 = Ret [])
  /\
  (forall fuel self chunkSize w,
      inputLargeTextOptimized cf fuel self [] chunkSize w = Ret (true, w))
  /\
  (forall fuel self chunkSize w,
      _isInitialized self = true ->
      exists w',
        inputLargeText cf fuel self [] chunkSize w = Ret (true, w') /\
        w' = w /\ posted w' = posted w).
Proof.
  split; [|split].
  - intros [|fuel] chunkSize; reflexivity.
  - intros [|fuel] self chunkSize w; reflexivity.
  - intros fuel self chunkSize w H. exists w. unfold inputLargeText.
    rewrite H. now repeat split.
Qed.

(** ** The binding *)

Lemma simulateKeyboardInput_returns text w fuel :
  len text < size_max ->
  (List.length text <= fuel)%nat ->
  exists success w',
    AxInsertBinding.simulateKeyboardInput cf fuel text w = Ret (success, w').
Proof.
  intros Hmax Hfuel. unfold AxInsertBinding.simulateKeyboardInput.
  destruct (getKeyboardSystem _) as [keyboard w1].
  destruct (negb (_isInitialized keyboard)); [now eauto|].
  destruct (inputLargeText_returns keyboard text default_chunkSize w1 fuel Hmax)
    as (r & w2 & Hr & _); [unfold default_chunkSize; lia|exact Hfuel|].
  rewrite Hr. now eauto.
Qed.

(** C9.  For every InsertText request, that is a call whose first
    argument is an object [{ text: string, targetApp?: string }],
    InsertText returns, without exception, the object built from the one
    boolean simulateKeyboardInput returned: [success] is that boolean; on
    success [method] is "keyboard" and [error] is null; on failure
    [method] is the empty string and [error] a fixed non-empty message.
    Nothing else is reported. *)
Theorem InsertText_reports_the_simulation_result :
  (forall args rest text w fuel,
      len text < size_max ->
      (List.length text <= fuel)%nat ->
      Utf8Value (Get args "text") = Some text ->
      (Get args "targetApp" = JsUndefined \/
       exists app, Get args "targetApp" = JsString app) ->
      exists success w1,
        AxInsertBinding.simulateKeyboardInput cf fuel text
          (emit (Cout (AxInsertStart (len text))) w) = Ret (success, w1) /\
        AxInsertBinding.InsertText cf fuel (JsObject args :: rest) w
        = Ret (mkReturn (AxInsertBinding.result_object success) None, w1))
  /\ AxInsertBinding.result_object true
     = JsObject [("success"%string, JsBoolean true);
                 ("method"%string, JsString AxInsertBinding.method_keyboard);
                 ("error"%string, JsNull)]
  /\ AxInsertBinding.result_object false
     = JsObject [("success"%string, JsBoolean false);
                 ("method"%string, JsString []);
                 ("error"%string, JsString AxInsertBinding.error_failed)]
  /\ AxInsertBinding.error_failed <> [].
Proof.
  split; [|split; [reflexivity|split; [reflexivity|discriminate]]].
  intros args rest text w fuel Hmax Hfuel Htext Happ.
  destruct (simulateKeyboardInput_returns text
              (emit (Cout (AxInsertStart (len text))) w) fuel Hmax Hfuel)
    as (success & w1 & Hsim).
  exists success, w1. split; [exact Hsim|].
  unfold AxInsertBinding.InsertText. rewrite Htext.
  destruct Happ as [-> | [app ->]]; cbn [Utf8Value]; now rewrite Hsim.
Qed.

End InjectorProperties.

(** * Runs on concrete inputs *)

(** ** Chunk size 1 *)

Lemma chunking_unfold_e_acute (fuel : nat) :
  chunking (S fuel) text_e_acute 1 0
  = match chunking fuel text_e_acute 1 0 with
    | Ret rest => Ret ([] :: rest)
    | OutOfFuel => OutOfFuel
    | Undefined => Undefined
    end.
Proof. reflexivity. Qed.

(** C1, at chunk size 1.  On the two bytes of U+00E9 the loop cuts an empty
    chunk at position 0 and stays there: no number of iterations ends the
    chunk sequence, so no chunk list reconstructs the text. *)
Theorem chunking_size_one_never_finishes :
  text_e_acute <> [] /\
  adjustChunkSize text_e_acute 0 1 = Some 0 /\
  (forall fuel, chunking fuel text_e_acute 1 0 = OutOfFuel) /\
  ~ (exists fuel chunks,
        chunking fuel text_e_acute 1 0 = Ret chunks /\
        List.concat chunks = text_e_acute).
Proof.
  assert (H : forall fuel, chunking fuel text_e_acute 1 0 = OutOfFuel).
  { induction fuel as [|fuel IH]; [reflexivity|].
    rewrite chunking_unfold_e_acute. now rewrite IH. }
  split; [discriminate|]. split; [reflexivity|]. split; [exact H|].
  intros (fuel & chunks & E & _). rewrite H in E. discriminate.
Qed.

Lemma chunk_step_e_acute (chunkCount : Z) (w : World) :
  chunk_step utf8_to_utf16 keyboard_ready text_e_acute 1
             (mkLoop 0 chunkCount w)
  = Continue
      (mkLoop 0 (size_add chunkCount 1)
         (emit (Usleep 100000)
            (emit (Cout (KbdChunk (size_add chunkCount 1) 2 0 0)) w))).
Proof. reflexivity. Qed.

Lemma chunk_loop_e_acute :
  forall (fuel : nat) (chunkCount : Z) (w : World),
    chunk_loop utf8_to_utf16 fuel keyboard_ready text_e_acute 1
               (mkLoop 0 chunkCount w) = OutOfFuel.
Proof.
  induction fuel as [|fuel IH]; intros chunkCount w; [reflexivity|].
  cbn [chunk_loop]. rewrite chunk_step_e_acute.
  change (position (mkLoop 0 chunkCount w) <? len text_e_acute) with true.
  cbv iota. apply IH.
Qed.

(** C3, at chunk size 1.  On the two bytes of U+00E9 adjustChunkSize
    returns 0 for a remainder of two bytes, the chunk is empty, and
    inputLargeText never returns: every iteration delivers the empty chunk,
    sleeps, and starts again at position 0. *)
Theorem inputLargeText_size_one_never_returns :
  adjustChunkSize text_e_acute 0
    (Z.min 1 (size_sub (len text_e_acute) 0)) = Some 0 /\
  substr text_e_acute 0 0 = [] /\
  (forall fuel w,
      inputLargeText utf8_to_utf16 fuel keyboard_ready text_e_acute 1 w
      = OutOfFuel).
Proof.
  split; [reflexivity|]. split; [reflexivity|].
  intros fuel w. apply chunk_loop_e_acute.
Qed.

(** ** A three-byte character across the default chunk boundary *)

(** C2, on a text the default chunk size splits.  The 1002 bytes are valid
    UTF-8 for 1000 characters; the first chunk is cut after the second byte
    of U+4E2D, because the byte before the boundary is a continuation byte;
    neither chunk is valid UTF-8; the insertion fails and delivers none of
    the characters. *)
Theorem continuation_byte_before_boundary_splits_character :
  utf8_to_utf16 (c_str text_998_then_3) = Some (repeat 97 998 ++ [0x4E2D; 98])
  /\ chunking 2 text_998_then_3 default_chunkSize 0
     = Ret [repeat x61 998 ++ [xe4; xb8]; [xad; x62]]
  /\ utf8_to_utf16 (c_str (repeat x61 998 ++ [xe4; xb8])) = None
  /\ utf8_to_utf16 (c_str [xad; x62]) = None
  /\ (forall fuel, exists w',
        inputLargeText utf8_to_utf16 (S fuel) keyboard_ready text_998_then_3
                       default_chunkSize world_fresh = Ret (false, w') /\
        posted w' = [])
  /\ (forall fuel, exists w',
        AxInsertBinding.InsertText utf8_to_utf16 (S fuel)
          [JsObject [("text"%string, JsString text_998_then_3)]] world_fresh
        = Ret (mkReturn (AxInsertBinding.result_object false) None, w') /\
        posted w' = []).
Proof.
  split; [vm_compute; reflexivity|].
  split; [vm_compute; reflexivity|].
  split; [vm_compute; reflexivity|].
  split; [vm_compute; reflexivity|].
  split; intros fuel; eexists; (split; [vm_compute; reflexivity|reflexivity]).
Qed.

(** A NUL inside the text ends what the platform reads of it: the call
    succeeds and only the characters before the NUL are typed. *)
Lemma embedded_nul_truncates_the_text :
  utf8_to_utf16 text_with_nul = Some [97; 0; 98] /\
  exists w',
    inputLargeText utf8_to_utf16 0 keyboard_ready text_with_nul
                   default_chunkSize world_fresh = Ret (true, w') /\
    posted w' = [mkEvent (Some 0%nat) 0 true [97];
                 mkEvent (Some 0%nat) 0 false [97]].
Proof.
  split; [reflexivity|]. eexists. split; reflexivity.
Qed.

(** ** initialize() called again *)

Lemma getKeyboardSystem_twice (w : World) :
  getKeyboardSystem (snd (getKeyboardSystem w))
  = (fst (getKeyboardSystem w), snd (getKeyboardSystem w)).
Proof.
  unfold getKeyboardSystem at 2 3 4.
  destruct (gKeyboardSystem w) as [k|] eqn:E; cbn [fst snd].
  - unfold getKeyboardSystem. now rewrite E.
  - destruct (KeyboardInputSystem_new w) as [k w1]. reflexivity.
Qed.

(** initialize() is written to be run once, by the constructor.  Run a
    second time on the same injector, with the platform granting both
    requests, it stores a source that is not the one the first call
    stored, and the first source is still live after the second call and
    after the destructor has released the source the injector holds. *)
Theorem second_initialize_replaces_and_leaks_the_source :
  forall w,
    sourceOk w (sourceCalls w) = true ->
    sourceOk w (S (sourceCalls w)) = true ->
    exists k1 w1 k2 w2,
      KeyboardInputSystem_new w = (k1, w1) /\
      initialize k1 w1 = (true, k2, w2) /\
      _isInitialized k1 = true /\ _isInitialized k2 = true /\
      _source k1 = Some (sourceCalls w) /\
      _source k2 = Some (S (sourceCalls w)) /\
      _source k2 <> _source k1 /\
      liveSources w2 = S (sourceCalls w) :: sourceCalls w :: liveSources w /\
      In (sourceCalls w) (liveSources (KeyboardInputSystem_delete k2 w2)).
Proof.
  intros w H1 H2.
  do 4 eexists.
  split.
  { unfold KeyboardInputSystem_new, initialize, CGEventSourceCreate.
    rewrite H1. reflexivity. }
  split.
  { unfold initialize, CGEventSourceCreate. cbn. rewrite H2. reflexivity. }
  repeat split.
  - cbn. intros E. inversion E. lia.
  - unfold KeyboardInputSystem_delete, CFRelease_source.
    cbn [_source liveSources]. apply in_in_remove; [lia|].
    right. now left.
Qed.

Lemma second_initialize_replaces_and_leaks_the_source_witness :
  sourceOk world_fresh (sourceCalls world_fresh) = true /\
  exists k1 w1 k2 w2,
    KeyboardInputSystem_new world_fresh = (k1, w1) /\
    initialize k1 w1 = (true, k2, w2) /\
    _isInitialized k1 = true /\ _isInitialized k2 = true /\
    _source k1 = Some (sourceCalls world_fresh) /\
    _source k2 = Some (S (sourceCalls world_fresh)) /\
    _source k2 <> _source k1 /\
    liveSources w2
    = S (sourceCalls world_fresh) :: sourceCalls world_fresh
        :: liveSources world_fresh /\
    In (sourceCalls world_fresh)
       (liveSources (KeyboardInputSystem_delete k2 w2)).
Proof.
  split; [reflexivity|].
  apply (second_initialize_replaces_and_leaks_the_source world_fresh);
    reflexivity.
Defined.

(** When the platform refuses the second request, the injector that was
    initialized is not any more, and the source it held is still live. *)
Lemma second_initialize_can_lose_the_source :
  forall w,
    sourceOk w (sourceCalls w) = true ->
    sourceOk w (S (sourceCalls w)) = false ->
    exists k1 w1 k2 w2,
      KeyboardInputSystem_new w = (k1, w1) /\
      initialize k1 w1 = (false, k2, w2) /\
      _isInitialized k1 = true /\ _isInitialized k2 = false /\
      _source k2 = None /\
      liveSources (KeyboardInputSystem_delete k2 w2)
      = sourceCalls w :: liveSources w.
Proof.
  intros w H1 H2. do 4 eexists.
  split.
  { unfold KeyboardInputSystem_new, initialize, CGEventSourceCreate.
    rewrite H1. reflexivity. }
  split.
  { unfold initialize, CGEventSourceCreate. cbn. rewrite H2. reflexivity. }
  repeat split.
Qed.

(** ** The scenarios of the design notes *)

(** 2500 one-byte characters at the default chunk size: chunks of 1000,
    1000 and 500 bytes, success, and 2500 key-down / key-up pairs. *)
Example ascii_2500_three_chunks :
  chunking 3 (repeat x61 2500) default_chunkSize 0
  = Ret [repeat x61 1000; repeat x61 1000; repeat x61 500]
  /\ exists w',
       inputLargeText utf8_to_utf16 3 keyboard_ready (repeat x61 2500)
                      default_chunkSize world_fresh = Ret (true, w') /\
       posted w'
       = flat_map (fun u => [mkEvent (Some 0%nat) 0 true [u];
                             mkEvent (Some 0%nat) 0 false [u]])
                  (repeat 97 2500).
Proof.
  split; [vm_compute; reflexivity|].
  eexists. split; vm_compute; reflexivity.
Qed.

(** A text no longer than the chunk size is delivered as one chunk. *)
Example short_text_single_chunk :
  exists w',
    inputLargeText utf8_to_utf16 0 keyboard_ready text_e_acute
                   default_chunkSize world_fresh = Ret (true, w') /\
    posted w' = [mkEvent (Some 0%nat) 0 true [0xE9];
                 mkEvent (Some 0%nat) 0 false [0xE9]].
Proof. eexists. split; reflexivity. Qed.

(** ** The theorems at concrete inputs *)

Lemma inputUnicodeText_fails_only_on_decoding_witness :
  (exists w',
      inputUnicodeText utf8_to_utf16 keyboard_ready [x61] (world_event_fails 0)
      = (true, w') /\ trace w' = [])
  /\ (exists w',
      inputUnicodeText utf8_to_utf16 keyboard_ready [x61] (world_event_fails 1)
      = (true, w') /\
      trace w' = [Post (mkEvent (Some 0%nat) 0 true [97]); Usleep 5000])
  /\ (exists w',
      inputUnicodeText utf8_to_utf16 keyboard_ready text_abc
                       (world_event_fails 2) = (true, w') /\
      trace w' = key_stroke (Some 0%nat) 97 ++ key_stroke (Some 0%nat) 99)
  /\ (exists w',
      inputUnicodeText utf8_to_utf16 keyboard_ready text_abc
                       (world_event_fails 3) = (true, w') /\
      trace w' = key_stroke (Some 0%nat) 97
                 ++ [Post (mkEvent (Some 0%nat) 0 true [98]); Usleep 5000]
                 ++ key_stroke (Some 0%nat) 99).
Proof.
  pose proof (inputUnicodeText_fails_only_on_decoding utf8_to_utf16)
    as (_ & _ & Hdown & Hup).
  split; [|split; [|split]].
  - destruct (Hdown keyboard_ready [x61] [] 97 [] (world_event_fails 0)
                eq_refl eq_refl) as (w' & H1 & H2).
    exists w'. split; [exact H1|exact H2].
  - destruct (Hup keyboard_ready [x61] [] 97 [] (world_event_fails 1)
                eq_refl eq_refl eq_refl) as (w' & H1 & H2).
    exists w'. split; [exact H1|exact H2].
  - destruct (Hdown keyboard_ready text_abc [97] 98 [99] (world_event_fails 2)
                eq_refl eq_refl) as (w' & H1 & H2).
    exists w'. split; [exact H1|exact H2].
  - destruct (Hup keyboard_ready text_abc [97] 98 [99] (world_event_fails 3)
                eq_refl eq_refl eq_refl) as (w' & H1 & H2).
    exists w'. split; [exact H1|exact H2].
Defined.

Lemma failed_chunk_aborts_without_rollback_witness :
  after_chunks utf8_to_utf16 1 keyboard_ready text_short_split 4
               (mkLoop 0 0 world_fresh) <> None /\
  exists w',
    inputLargeText utf8_to_utf16 (1 + 1) keyboard_ready text_short_split 4
                   world_fresh = Ret (false, w') /\
    List.length (posted w') = 8%nat.
Proof.
  split; [vm_compute; discriminate|].
  destruct (after_chunks utf8_to_utf16 1 keyboard_ready text_short_split 4
                         (mkLoop 0 0 world_fresh)) as [st|] eqn:Hafter;
    [|vm_compute in Hafter; discriminate].
  assert (Hst : position st = 4 /\ List.length (posted (world st)) = 8%nat).
  { vm_compute in Hafter. injection Hafter as <-. split; reflexivity. }
  destruct Hst as [Hpos Hlen].
  destruct (proj2 (failed_chunk_aborts_without_rollback utf8_to_utf16)
              keyboard_ready text_short_split 4 1%nat 0%nat world_fresh st 4
              world_fresh)
    as (w' & Hrun & Hposted & _).
  - reflexivity.
  - vm_compute. split; congruence.
  - exact Hafter.
  - rewrite Hpos. reflexivity.
  - rewrite Hpos. reflexivity.
  - rewrite Hpos. reflexivity.
  - exists w'. split; [exact Hrun|]. now rewrite Hposted.
Defined.

Lemma uninitialized_injector_posts_nothing_witness :
  _isInitialized keyboard_down = false /\
  inputLargeText utf8_to_utf16 0 keyboard_down [x61] default_chunkSize
                 world_fresh
  = Ret (false, emit (Cerr KbdUninitialized) world_fresh) /\
  exists w',
    AxInsertBinding.simulateKeyboardInput utf8_to_utf16 0 [x61]
      world_no_session = Ret (false, w') /\
    posted w' = posted world_no_session.
Proof.
  pose proof (uninitialized_injector_posts_nothing utf8_to_utf16) as [H1 H2].
  split; [reflexivity|].
  split; [apply (H1 0%nat keyboard_down [x61] default_chunkSize world_fresh);
          reflexivity|].
  apply (H2 0%nat [x61] world_no_session). reflexivity.
Defined.

Lemma empty_text_is_a_no_op_witness :
  _isInitialized keyboard_ready = true /\
  exists w',
    inputLargeText utf8_to_utf16 0 keyboard_ready [] default_chunkSize
                   world_fresh = Ret (true, w') /\
    w' = world_fresh /\ posted w' = posted world_fresh.
Proof.
  split; [reflexivity|].
  apply (proj2 (proj2 (empty_text_is_a_no_op utf8_to_utf16))). reflexivity.
Defined.

Lemma InsertText_reports_the_simulation_result_witness :
  len text_e_acute < size_max /\
  exists success w1,
    AxInsertBinding.simulateKeyboardInput utf8_to_utf16 2 text_e_acute
      (emit (Cout (AxInsertStart (len text_e_acute))) world_fresh)
    = Ret (success, w1) /\
    AxInsertBinding.InsertText utf8_to_utf16 2
      (JsObject [("text"%string, JsString text_e_acute)] :: []) world_fresh
    = Ret (mkReturn (AxInsertBinding.result_object success) None, w1).
Proof.
  split; [reflexivity|].
  apply (proj1 (InsertText_reports_the_simulation_result utf8_to_utf16)).
  - reflexivity.
  - apply le_n.
  - reflexivity.
  - left. reflexivity.
Defined.

(** * Further properties of the code *)

(** ** Chunk sizes *)

Lemma substr_len (text : list byte) (position a : Z) :
  0 <= position -> 0 <= a -> position + a <= len text ->
  len (substr text position a) = a.
Proof.
  intros Hp Ha Hle. unfold len, substr in *.
  rewrite length_firstn, length_skipn. lia.
Qed.

(** The adjusted size in the loop, case by case. *)
Lemma adjusted_size_cases (text : list byte) (chunkSize position : Z) :
  len text < size_max ->
  0 <= position < len text -> 1 <= chunkSize ->
  exists a,
    adjustChunkSize text position
                    (Z.min chunkSize (size_sub (len text) position)) = Some a /\
    ((position + chunkSize < len text /\
      exists c, nth_error text (Z.to_nat (position + chunkSize - 1)) = Some c /\
                a = if is_lead c then chunkSize - 1 else chunkSize)
     \/ (len text <= position + chunkSize /\ a = len text - position)).
Proof.
  intros Hmax Hpos Hcs.
  rewrite size_sub_small by lia.
  destruct (Z_lt_le_dec (position + chunkSize) (len text)) as [Hin|Hend].
  - rewrite Z.min_l by lia.
    destruct (adjustChunkSize_inside text position chunkSize)
      as (c & Hnth & Hadj); try lia.
    rewrite Hadj. eexists. split; [reflexivity|]. left.
    split; [exact Hin|]. now exists c.
  - rewrite Z.min_r by lia.
    rewrite adjustChunkSize_at_end by lia.
    eexists. split; [reflexivity|]. right. now split.
Qed.

Lemma chunking_chunk_sizes (text : list byte) (chunkSize : Z) :
  len text < size_max -> 2 <= chunkSize ->
  forall (fuel : nat) (position : Z) (chunks : list (list byte)),
    0 <= position <= len text ->
    chunking fuel text chunkSize position = Ret chunks ->
    Forall (fun c => 1 <= len c <= chunkSize) chunks.
Proof.
  intros Hmax Hcs. induction fuel as [|fuel IH]; intros position chunks Hpos H.
  - cbn [chunking] in H. destruct (position <? len text); [discriminate|].
    injection H as <-. constructor.
  - cbn [chunking] in H. destruct (position <? len text) eqn:Hlt.
    + apply Z.ltb_lt in Hlt.
      destruct (adjusted_size_cases text chunkSize position)
        as (a & Ha & Hcase); try lia.
      rewrite Ha in H. destruct (chunkSize =? 0); [discriminate|].
      assert (Hbounds : 1 <= a <= chunkSize /\ position + a <= len text).
      { destruct Hcase as [(Hin & c & _ & ->) | (Hend & ->)].
        - destruct (is_lead c); lia.
        - lia. }
      rewrite size_add_small in H by lia.
      destruct (chunking fuel text chunkSize (position + a)) as [rest| |] eqn:E;
        try discriminate.
      injection H as <-. constructor.
      * rewrite substr_len by lia. lia.
      * apply (IH (position + a)); [lia|exact E].
    + injection H as <-. constructor.
Qed.

(** X1. For every text and every chunk size of two bytes or more, the
    chunk loop finishes within [length text] iterations; its chunks,
    concatenated in order, are the text; and every chunk holds at least
    one byte and at most [chunkSize] bytes. *)
Theorem chunking_partitions_the_text :
  forall (text : list byte) (chunkSize : Z),
    len text < size_max -> 2 <= chunkSize ->
    exists chunks,
      chunking (List.length text) text chunkSize 0 = Ret chunks /\
      List.concat chunks = text /\
      Forall (fun c => 1 <= len c <= chunkSize) chunks.
Proof.
  intros text chunkSize Hmax Hcs.
  destruct (chunking_round_trip text chunkSize Hmax Hcs)
    as (chunks & Hrun & Hcat & _).
  exists chunks. split; [exact Hrun|]. split; [exact Hcat|].
  apply (chunking_chunk_sizes text chunkSize Hmax Hcs (List.length text) 0);
    [|exact Hrun].
  pose proof (len_nonneg text). lia.
Qed.

Lemma chunking_partitions_the_text_witness :
  len text_short_split < size_max /\
  exists chunks,
    chunking (List.length text_short_split) text_short_split 4 0 = Ret chunks /\
    List.concat chunks = text_short_split /\
    Forall (fun c => 1 <= len c <= 4) chunks.
Proof.
  split; [reflexivity|].
  apply (chunking_partitions_the_text text_short_split 4); [reflexivity|lia].
Defined.

(** ** Text input leaves the event sources alone *)

Lemma same_sources_refl w : same_sources w w.
Proof. now repeat split. Qed.

Lemma same_sources_trans w1 w2 w3 :
  same_sources w1 w2 -> same_sources w2 w3 -> same_sources w1 w3.
Proof.
  intros (A1 & A2 & A3 & A4 & A5) (B1 & B2 & B3 & B4 & B5).
  repeat split; congruence.
Qed.

Lemma same_sources_emit e w : same_sources w (emit e w).
Proof. now repeat split. Qed.

Lemma same_sources_post_unichar self u w :
  same_sources w (post_unichar self u w).
Proof.
  unfold post_unichar, CGEventCreateKeyboardEvent.
  destruct (eventOk w (eventCalls w)); [|now repeat split].
  cbn. destruct (eventOk w (S (eventCalls w))); now repeat split.
Qed.

Lemma same_sources_post_unichars self units :
  forall w, same_sources w (post_unichars self units w).
Proof.
  induction units as [|u rest IH]; intros w; cbn [post_unichars].
  - apply same_sources_refl.
  - eapply same_sources_trans; [apply same_sources_post_unichar|apply IH].
Qed.

Section MoreInjectorProperties.

Variable cf : list byte -> option (list Z).

Lemma same_sources_inputTextInternal self text w :
  same_sources w (snd (inputTextInternal cf self text w)).
Proof.
  unfold inputTextInternal, inputUnicodeText.
  destruct (cf (c_str text)); cbn [snd].
  - apply same_sources_post_unichars.
  - apply same_sources_emit.
Qed.

(** What one complete iteration of the chunk loop does, exactly. *)
Lemma chunk_step_Continue_exact self text chunkSize st st' :
  chunk_step cf self text chunkSize st = Continue st' ->
  exists a units,
    adjustChunkSize text (position st)
      (Z.min chunkSize (size_sub (len text) (position st))) = Some a /\
    (chunkSize =? 0) = false /\
    cf (c_str (substr text (position st) a)) = Some units /\
    st' = mkLoop (size_add (position st) a) (size_add (chunkCount st) 1)
            (let w2 :=
               post_unichars self units
                 (emit (Cout (KbdChunk
                                (size_add (chunkCount st) 1)
                                (size_sub (size_add (len text) chunkSize) 1
                                 / chunkSize)
                                (position st) a)) (world st)) in
             if size_add (position st) a <? len text
             then emit (Usleep 100000) w2 else w2).
Proof.
  unfold chunk_step, inputTextInternal, inputUnicodeText.
  destruct (adjustChunkSize _ _ _) as [a|] eqn:Ha; [|discriminate].
  destruct (chunkSize =? 0) eqn:Hcs; [discriminate|].
  destruct (cf (c_str (substr text (position st) a))) as [units|] eqn:Hcf;
    [|discriminate].
  intros H. injection H as <-. exists a, units.
  repeat split; (reflexivity || assumption).
Qed.

Lemma chunk_step_Break_exact self text chunkSize st result w' :
  chunk_step cf self text chunkSize st = Break result w' ->
  result = false /\
  exists a,
    adjustChunkSize text (position st)
      (Z.min chunkSize (size_sub (len text) (position st))) = Some a /\
    cf (c_str (substr text (position st) a)) = None /\
    w' = emit (Cerr KbdChunkFailed)
           (emit (Cerr KbdCFStringFailed)
              (emit (Cout (KbdChunk
                             (size_add (chunkCount st) 1)
                             (size_sub (size_add (len text) chunkSize) 1
                              / chunkSize)
                             (position st) a)) (world st))).
Proof.
  unfold chunk_step, inputTextInternal, inputUnicodeText.
  destruct (adjustChunkSize _ _ _) as [a|] eqn:Ha; [|discriminate].
  destruct (chunkSize =? 0) eqn:Hcs; [discriminate|].
  destruct (cf (c_str (substr text (position st) a))) as [units|] eqn:Hcf;
    [discriminate|].
  intros H. injection H as <- <-. split; [reflexivity|]. exists a.
  repeat split; (reflexivity || assumption).
Qed.

Lemma same_sources_chunk_loop self text chunkSize :
  forall fuel st result w',
    chunk_loop cf fuel self text chunkSize st = Ret (result, w') ->
    same_sources (world st) w'.
Proof.
  induction fuel as [|fuel IH]; intros st result w' H; cbn [chunk_loop] in H.
  - destruct (position st <? len text); [discriminate|].
    injection H as _ <-. apply same_sources_refl.
  - destruct (position st <? len text);
      [|injection H as _ <-; apply same_sources_refl].
    destruct (chunk_step cf self text chunkSize st) as [st'|r w2|] eqn:E;
      [| |discriminate].
    + destruct (chunk_step_Continue_exact _ _ _ _ _ E)
        as (a & units & _ & _ & _ & ->).
      eapply same_sources_trans; [|apply (IH _ _ _ H)]. cbn [world].
      eapply same_sources_trans; [apply same_sources_emit|].
      eapply same_sources_trans; [apply same_sources_post_unichars|].
      destruct (_ <? _); [apply same_sources_emit|apply same_sources_refl].
    + injection H as <- <-.
      destruct (chunk_step_Break_exact _ _ _ _ _ _ E) as (_ & a & _ & _ & ->).
      now repeat split.
Qed.

(** X2. inputLargeText creates no event source, releases none and does
    not touch the singleton pointer or the platform oracles: whatever the
    text, the chunk size and the result, the world it returns differs from
    the one it was given only in its trace and in the count of keyboard
    events created. *)
Theorem inputLargeText_leaves_sources_alone :
  forall fuel self text chunkSize w result w',
    inputLargeText cf fuel self text chunkSize w = Ret (result, w') ->
    same_sources w w' /\ extends w w' /\ (eventCalls w <= eventCalls w')%nat.
Proof.
  intros fuel self text chunkSize w result w' H.
  assert (Hmono : forall u v, (eventCalls v <= eventCalls (post_unichar self u v))%nat).
  { intros u v. unfold post_unichar, CGEventCreateKeyboardEvent.
    destruct (eventOk v (eventCalls v)); cbn; [|lia].
    destruct (eventOk v (S (eventCalls v))); cbn; lia. }
  assert (Hmonos : forall units v,
             (eventCalls v <= eventCalls (post_unichars self units v))%nat).
  { induction units as [|u rest IH]; intros v; cbn [post_unichars]; [lia|].
    specialize (IH (post_unichar self u v)). specialize (Hmono u v). lia. }
  assert (Hloop : forall fuel st r v,
             chunk_loop cf fuel self text chunkSize st = Ret (r, v) ->
             extends (world st) v /\ (eventCalls (world st) <= eventCalls v)%nat).
  { clear H. induction fuel0 as [|fuel0 IH]; intros st r v H;
      cbn [chunk_loop] in H.
    - destruct (position st <? len text); [discriminate|].
      injection H as _ <-. split; [apply extends_refl|lia].
    - destruct (position st <? len text);
        [|injection H as _ <-; split; [apply extends_refl|lia]].
      destruct (chunk_step cf self text chunkSize st) as [st'|r2 w2|] eqn:E;
        [| |discriminate].
      + destruct (IH _ _ _ H) as [Hext Hle].
        destruct (chunk_step_Continue cf _ _ _ _ _ E) as (Hext' & _).
        split; [eapply extends_trans; eauto|].
        destruct (chunk_step_Continue_exact _ _ _ _ _ E)
          as (a & units & _ & _ & _ & ->). cbn [world] in Hle.
        match type of Hle with
          (eventCalls (if ?c then _ else _) <= _)%nat => destruct c end;
          cbn [emit eventCalls] in Hle;
          match type of Hle with
            (eventCalls (post_unichars _ _ ?v0) <= _)%nat =>
              specialize (Hmonos units v0); cbn [emit eventCalls] in Hmonos
          end; lia.
      + injection H as <- <-.
        destruct (chunk_step_Break_exact _ _ _ _ _ _ E) as (_ & a & _ & _ & ->).
        split; [|cbn; lia].
        eapply extends_trans; [apply extends_emit|].
        eapply extends_trans; apply extends_emit. }
  unfold inputLargeText in H.
  destruct (negb (_isInitialized self)).
  { injection H as _ <-.
    split; [apply same_sources_emit|]. split; [apply extends_emit|cbn; lia]. }
  destruct text as [|b text'] eqn:Et.
  { injection H as _ <-.
    split; [apply same_sources_refl|]. split; [apply extends_refl|lia]. }
  rewrite <- Et in *. destruct (chunkSize <? len text).
  - unfold inputLargeTextOptimized in H. split.
    + apply (same_sources_chunk_loop _ _ _ _ _ _ _ H).
    + apply (Hloop _ _ _ _ H).
  - pose proof (same_sources_inputTextInternal self text w) as Hs.
    pose proof (extends_inputTextInternal cf self text w) as He.
    unfold inputTextInternal, inputUnicodeText in *.
    destruct (cf (c_str text)) as [units|]; injection H as _ <-;
      cbn [snd] in *; (split; [exact Hs|split; [exact He|]]).
    + apply Hmonos.
    + cbn. lia.
Qed.

End MoreInjectorProperties.

(** ** Typing the code units of one chunk *)

Lemma events_of_key_strokes source units :
  events_of (flat_map (key_stroke source) units)
  = flat_map (key_pair source) units.
Proof.
  induction units as [|u rest IH]; [reflexivity|].
  cbn [flat_map]. rewrite events_of_app, IH. reflexivity.
Qed.

Lemma post_unichars_granted self units :
  forall w,
    events_granted w ->
    trace (post_unichars self units w)
    = trace w ++ flat_map (key_stroke (_source self)) units /\
    eventCalls (post_unichars self units w)
    = (eventCalls w + 2 * List.length units)%nat.
Proof.
  induction units as [|u rest IH]; intros w Hok; cbn [post_unichars].
  - cbn. rewrite app_nil_r. split; [reflexivity|lia].
  - assert (Hok' : events_granted (post_unichar self u w)).
    { intros n. destruct (same_sources_post_unichar self u w)
        as (_ & _ & _ & _ & ->). apply Hok. }
    destruct (IH _ Hok') as [Ht Hc]. rewrite Ht, Hc.
    rewrite (post_unichar_pair self u w (Hok _) (Hok _)).
    split.
    + cbn [flat_map key_stroke]. now rewrite <- app_assoc.
    + unfold post_unichar, CGEventCreateKeyboardEvent.
      rewrite (Hok (eventCalls w)). cbn.
      rewrite (Hok (S (eventCalls w))). cbn. lia.
Qed.

Section DeliveryProperties.

Variable cf : list byte -> option (list Z).

Lemma inputUnicodeText_types_every_unit_in_order_aux
  self text units w :
  events_granted w ->
  cf (c_str text) = Some units ->
  exists w',
    inputUnicodeText cf self text w = (true, w') /\
    posted w' = posted w ++ flat_map (key_pair (_source self)) units.
Proof.
  intros Hok Hcf. exists (post_unichars self units w).
  destruct (post_unichars_granted self units w Hok) as [Ht _].
  split; [now apply inputUnicodeText_decoded|].
  unfold posted. now rewrite Ht, events_of_app, events_of_key_strokes.
Qed.

(** X3. When the platform creates every keyboard event, delivering a
    chunk that decodes to [units] appends to the trace, for each code unit
    in order, its key-down, its key-up and one 5 ms delay, and nothing
    else; two events are created per code unit. *)
Theorem inputUnicodeText_types_every_unit_in_order :
  forall self text units w,
    events_granted w ->
    cf (c_str text) = Some units ->
    exists w',
      inputUnicodeText cf self text w = (true, w') /\
      trace w' = trace w ++ flat_map (key_stroke (_source self)) units /\
      posted w' = posted w ++ flat_map (key_pair (_source self)) units /\
      eventCalls w' = (eventCalls w + 2 * List.length units)%nat.
Proof.
  intros self text units w Hok Hcf.
  exists (post_unichars self units w).
  destruct (post_unichars_granted self units w Hok) as [Ht Hc].
  split; [now apply inputUnicodeText_decoded|].
  split; [exact Ht|]. split; [|exact Hc].
  unfold posted. now rewrite Ht, events_of_app, events_of_key_strokes.
Qed.

(** The events one code unit can add, whatever the platform grants. *)
Lemma post_unichar_posts self u w :
  exists more,
    posted (post_unichar self u w) = posted w ++ more /\
    (more = [] \/ more = [mkEvent (_source self) 0 true [u]] \/
     more = key_pair (_source self) u).
Proof.
  unfold post_unichar, CGEventCreateKeyboardEvent.
  destruct (eventOk w (eventCalls w)).
  - cbn. destruct (eventOk w (S (eventCalls w))); cbn.
    + exists (key_pair (_source self) u). split; [|now right; right].
      unfold posted. cbn. rewrite !events_of_app. cbn.
      now rewrite <- !app_assoc.
    + exists [mkEvent (_source self) 0 true [u]]. split; [|now right; left].
      unfold posted. cbn. rewrite !events_of_app. cbn.
      now rewrite <- !app_assoc.
  - exists []. split; [|now left]. unfold posted. cbn. now rewrite app_nil_r.
Qed.

Lemma post_unichars_posts self units :
  forall w, exists more,
    posted (post_unichars self units w) = posted w ++ more /\
    Forall (fun e => ev_source e = _source self /\ ev_keycode e = 0 /\
                     exists u, In u units /\ ev_unicode e = [u]) more /\
    (List.length more <= 2 * List.length units)%nat.
Proof.
  induction units as [|u rest IH]; intros w; cbn [post_unichars].
  - exists []. rewrite app_nil_r. repeat split; [constructor|cbn; lia].
  - destruct (post_unichar_posts self u w) as (m1 & H1 & Hm1).
    destruct (IH (post_unichar self u w)) as (m2 & H2 & Hall & Hlen).
    exists (m1 ++ m2). rewrite H2, H1, app_assoc. split; [reflexivity|].
    split.
    + apply Forall_app. split.
      * destruct Hm1 as [-> | [-> | ->]]; repeat constructor;
          exists u; (split; [now left|reflexivity]).
      * eapply Forall_impl; [|exact Hall].
        intros e (Hs & Hk & u' & Hin & Hu). repeat split; auto.
        exists u'. split; [now right|exact Hu].
    + rewrite length_app.
      destruct Hm1 as [-> | [-> | ->]]; cbn [List.length key_pair]; lia.
Qed.

(** X4. Whatever the platform grants or refuses, every event a chunk
    delivery posts is a keyboard event made from the injector's own source
    with key code 0 that carries exactly one code unit of the decoded
    chunk, and at most two events are posted per code unit; a chunk that
    does not decode posts nothing. *)
Theorem inputUnicodeText_posts_only_units_of_the_chunk :
  forall self text w,
  exists more,
    posted (snd (inputUnicodeText cf self text w)) = posted w ++ more /\
    match cf (c_str text) with
    | Some units =>
        Forall (fun e => ev_source e = _source self /\ ev_keycode e = 0 /\
                         exists u, In u units /\ ev_unicode e = [u]) more /\
        (List.length more <= 2 * List.length units)%nat
    | None => more = []
    end.
Proof.
  intros self text w. unfold inputUnicodeText.
  destruct (cf (c_str text)) as [units|]; cbn [snd].
  - destruct (post_unichars_posts self units w) as (more & H1 & H2 & H3).
    exists more. now repeat split.
  - exists []. rewrite app_nil_r. split; [|reflexivity].
    apply posted_emit_silent. discriminate.
Qed.

(** X5. Only the bytes before the first NUL of a chunk are typed: a text
    [prefix ++ NUL :: suffix] with no NUL in [prefix] is delivered exactly
    as [prefix] alone is, with the same result. *)
Theorem inputUnicodeText_stops_at_first_nul :
  forall self prefix suffix w,
    forallb not_nul prefix = true ->
    inputUnicodeText cf self (prefix ++ x00 :: suffix) w
    = inputUnicodeText cf self prefix w.
Proof.
  intros self prefix suffix w Hp. unfold inputUnicodeText.
  assert (Hc : forall p, forallb not_nul p = true ->
                         c_str (p ++ x00 :: suffix) = p /\ c_str p = p).
  { induction p as [|b p IH]; intros H.
    - split; reflexivity.
    - cbn [forallb] in H. apply andb_true_iff in H as [Hb Hrest].
      unfold not_nul in Hb. apply negb_true_iff in Hb.
      cbn [app c_str]. rewrite Hb.
      destruct (IH Hrest) as [-> ->]. now split. }
  destruct (Hc prefix Hp) as [-> ->]. reflexivity.
Qed.

End DeliveryProperties.

(** ** Whole chunked runs *)

Lemma interchunk_sleeps_app (a b : list Effect) :
  interchunk_sleeps (a ++ b) = (interchunk_sleeps a + interchunk_sleeps b)%nat.
Proof.
  induction a as [|e a IH]; [reflexivity|].
  destruct e as [ev|us|l|l]; cbn [app interchunk_sleeps]; try exact IH.
  destruct (us =? 100000); cbn; now rewrite IH.
Qed.

Lemma post_unichar_no_interchunk_sleep self u w :
  interchunk_sleeps (trace (post_unichar self u w))
  = interchunk_sleeps (trace w).
Proof.
  unfold post_unichar, CGEventCreateKeyboardEvent.
  destruct (eventOk w (eventCalls w)); [|reflexivity].
  cbn. destruct (eventOk w (S (eventCalls w))); cbn;
    rewrite !interchunk_sleeps_app; cbn; lia.
Qed.

Lemma post_unichars_no_interchunk_sleep self units :
  forall w, interchunk_sleeps (trace (post_unichars self units w))
            = interchunk_sleeps (trace w).
Proof.
  induction units as [|u rest IH]; intros w; cbn [post_unichars];
    [reflexivity|].
  now rewrite IH, post_unichar_no_interchunk_sleep.
Qed.

Lemma chunking_at_end (fuel : nat) (text : list byte) (chunkSize position : Z) :
  (position <? len text) = false ->
  chunking fuel text chunkSize position = Ret [].
Proof. intros H. destruct fuel; cbn [chunking]; now rewrite H. Qed.

Lemma chunking_before_end (fuel : nat) (text : list byte)
  (chunkSize position : Z) :
  (position <? len text) = true ->
  chunking fuel text chunkSize position <> Ret [].
Proof.
  intros H. destruct fuel; cbn [chunking]; rewrite H; [discriminate|].
  destruct (adjustChunkSize _ _ _); [|discriminate].
  destruct (chunkSize =? 0); [discriminate|].
  destruct (chunking _ _ _ _); discriminate.
Qed.

Section ChunkedRuns.

Variable cf : list byte -> option (list Z).

Lemma chunk_loop_more_fuel self text chunkSize :
  forall fuel st r,
    chunk_loop cf fuel self text chunkSize st = Ret r ->
    forall extra, chunk_loop cf (fuel + extra) self text chunkSize st = Ret r.
Proof.
  induction fuel as [|fuel IH]; intros st r H extra.
  - cbn [chunk_loop] in H. destruct (position st <? len text) eqn:Hlt;
      [discriminate|].
    destruct (0 + extra)%nat; cbn [chunk_loop]; now rewrite Hlt.
  - cbn [Nat.add chunk_loop] in *. destruct (position st <? len text);
      [|exact H].
    destruct (chunk_step cf self text chunkSize st) as [st'|b w2|];
      [now apply IH|exact H|discriminate].
Qed.

(** X6. For every chunk size of two bytes or more inputLargeText returns:
    [length text] iterations of the chunk loop are enough, the result and
    the world returned are the same for every larger number, and the trace
    of the world given is kept as a prefix. *)
Theorem inputLargeText_returns_for_sizes_from_two :
  forall self text chunkSize w,
    len text < size_max -> 2 <= chunkSize ->
    exists result w',
      extends w w' /\
      forall fuel, (List.length text <= fuel)%nat ->
        inputLargeText cf fuel self text chunkSize w = Ret (result, w').
Proof.
  intros self text chunkSize w Hmax Hcs.
  destruct (inputLargeText_returns cf self text chunkSize w (List.length text)
              Hmax Hcs (le_n _)) as (result & w' & Hrun & Hext).
  exists result, w'. split; [exact Hext|].
  intros fuel Hfuel.
  replace fuel with (List.length text + (fuel - List.length text))%nat by lia.
  revert Hrun. unfold inputLargeText.
  destruct (negb (_isInitialized self)); [auto|].
  destruct text as [|b text'] eqn:Et; [auto|]. rewrite <- Et.
  destruct (chunkSize <? len text); [|auto].
  unfold inputLargeTextOptimized. intros Hrun.
  now apply chunk_loop_more_fuel.
Qed.

Lemma events_granted_same w w' :
  same_sources w w' -> events_granted w -> events_granted w'.
Proof. intros (_ & _ & _ & _ & E) H n. rewrite E. apply H. Qed.

Lemma chunk_loop_posts_chunk_by_chunk self text chunkSize :
  forall fuel st w',
    events_granted (world st) ->
    chunk_loop cf fuel self text chunkSize st = Ret (true, w') ->
    exists chunks decoded,
      chunking fuel text chunkSize (position st) = Ret chunks /\
      Forall2 (fun c units => cf (c_str c) = Some units) chunks decoded /\
      posted w'
      = posted (world st)
        ++ flat_map (key_pair (_source self)) (List.concat decoded).
Proof.
  induction fuel as [|fuel IH]; intros st w' Hok H;
    cbn [chunk_loop chunking] in *.
  - destruct (position st <? len text); [discriminate|].
    injection H as <-. exists [], []. cbn. rewrite app_nil_r.
    repeat split. constructor.
  - destruct (position st <? len text).
    2:{ injection H as <-. exists [], []. cbn. rewrite app_nil_r.
        repeat split. constructor. }
    destruct (chunk_step cf self text chunkSize st) as [st'|r w2|] eqn:E;
      [| |discriminate].
    2:{ destruct (chunk_step_Break cf _ _ _ _ _ _ E) as [-> _]. discriminate. }
    destruct (chunk_step_Continue_exact cf _ _ _ _ _ E)
      as (a & units & Ha & Hcs & Hcf & Hst').
    rewrite Ha, Hcs.
    set (w1 := emit (Cout (KbdChunk (size_add (chunkCount st) 1)
                 (size_sub (size_add (len text) chunkSize) 1 / chunkSize)
                 (position st) a)) (world st)) in *.
    assert (Hok1 : events_granted w1).
    { apply (events_granted_same (world st)); [apply same_sources_emit|exact Hok]. }
    destruct (post_unichars_granted self units w1 Hok1) as [Ht _].
    assert (Hposted : posted (world st')
                      = posted (world st)
                        ++ flat_map (key_pair (_source self)) units).
    { rewrite Hst'. cbn [world].
      assert (Hp2 : posted (post_unichars self units w1)
                    = posted (world st)
                      ++ flat_map (key_pair (_source self)) units).
      { unfold posted. rewrite Ht, events_of_app, events_of_key_strokes.
        f_equal. unfold w1, emit. cbn [trace]. rewrite events_of_app. cbn.
        now rewrite app_nil_r. }
      destruct (_ <? _); [|exact Hp2].
      rewrite posted_emit_silent by discriminate. exact Hp2. }
    assert (Hok' : events_granted (world st')).
    { rewrite Hst'. cbn [world].
      apply (events_granted_same w1); [|exact Hok1].
      eapply same_sources_trans; [apply same_sources_post_unichars|].
      destruct (_ <? _); [apply same_sources_emit|apply same_sources_refl]. }
    destruct (IH st' w' Hok' H) as (rest & decoded & Hrest & Hdec & Hrun).
    assert (Hpos : position st' = size_add (position st) a)
      by (rewrite Hst'; reflexivity).
    rewrite <- Hpos, Hrest.
    exists (substr text (position st) a :: rest), (units :: decoded).
    split; [reflexivity|]. split; [now constructor|].
    rewrite Hrun, Hposted. cbn [List.concat].
    now rewrite flat_map_app, app_assoc.
Qed.

(** X7. When the platform creates every keyboard event and the chunked
    path returns success, every chunk the loop cut has decoded, and the
    events posted are, chunk after chunk and code unit after code unit in
    order, one key-down / key-up pair per code unit. *)
Theorem inputLargeTextOptimized_posts_the_chunks_in_order :
  forall fuel self text chunkSize w w',
    events_granted w ->
    inputLargeTextOptimized cf fuel self text chunkSize w = Ret (true, w') ->
    exists chunks decoded,
      chunking fuel text chunkSize 0 = Ret chunks /\
      Forall2 (fun c units => cf (c_str c) = Some units) chunks decoded /\
      posted w'
      = posted w ++ flat_map (key_pair (_source self)) (List.concat decoded).
Proof.
  intros fuel self text chunkSize w w' Hok H.
  apply (chunk_loop_posts_chunk_by_chunk self text chunkSize fuel
           (mkLoop 0 0 w) w' Hok H).
Qed.

Lemma chunk_loop_sleeps_between_chunks self text chunkSize :
  forall fuel st w',
    chunk_loop cf fuel self text chunkSize st = Ret (true, w') ->
    exists chunks,
      chunking fuel text chunkSize (position st) = Ret chunks /\
      interchunk_sleeps (trace w')
      = (interchunk_sleeps (trace (world st)) + pred (List.length chunks))%nat.
Proof.
  induction fuel as [|fuel IH]; intros st w' H; cbn [chunk_loop chunking] in *.
  - destruct (position st <? len text); [discriminate|].
    injection H as <-. exists []. split; [reflexivity|cbn; lia].
  - destruct (position st <? len text).
    2:{ injection H as <-. exists []. split; [reflexivity|cbn; lia]. }
    destruct (chunk_step cf self text chunkSize st) as [st'|r w2|] eqn:E;
      [| |discriminate].
    2:{ destruct (chunk_step_Break cf _ _ _ _ _ _ E) as [-> _]. discriminate. }
    destruct (chunk_step_Continue_exact cf _ _ _ _ _ E)
      as (a & units & Ha & Hcs & Hcf & Hst').
    rewrite Ha, Hcs.
    destruct (IH st' w' H) as (rest & Hrest & Hrun).
    assert (Hpos : position st' = size_add (position st) a)
      by (rewrite Hst'; reflexivity).
    rewrite <- Hpos, Hrest. eexists. split; [reflexivity|].
    rewrite Hrun. cbn [List.length pred].
    destruct (position st' <? len text) eqn:Hlt.
    + (* not the last chunk: one delay, and more chunks follow *)
      assert (Hne : rest <> []).
      { intros ->. now apply (chunking_before_end fuel text chunkSize _ Hlt). }
      rewrite Hst'. cbn [world]. rewrite <- Hpos, Hlt.
      unfold emit at 1. cbn [trace]. rewrite interchunk_sleeps_app.
      rewrite post_unichars_no_interchunk_sleep.
      unfold emit. cbn [trace]. rewrite interchunk_sleeps_app. cbn.
      destruct rest; [congruence|cbn; lia].
    + (* the last chunk: no delay *)
      rewrite (chunking_at_end fuel text chunkSize _ Hlt) in Hrest.
      injection Hrest as <-.
      rewrite Hst'. cbn [world]. rewrite <- Hpos, Hlt.
      rewrite post_unichars_no_interchunk_sleep.
      unfold emit. cbn [trace]. rewrite interchunk_sleeps_app. cbn. lia.
Qed.

(** X8. A chunked run that returns success has slept 100 ms after every
    chunk but the last: the number of inter-chunk delays it adds to the
    trace is the number of chunks less one. *)
Theorem inputLargeTextOptimized_sleeps_between_chunks :
  forall fuel self text chunkSize w w',
    inputLargeTextOptimized cf fuel self text chunkSize w = Ret (true, w') ->
    exists chunks,
      chunking fuel text chunkSize 0 = Ret chunks /\
      interchunk_sleeps (trace w')
      = (interchunk_sleeps (trace w) + pred (List.length chunks))%nat.
Proof.
  intros fuel self text chunkSize w w' H.
  apply (chunk_loop_sleeps_between_chunks self text chunkSize fuel
           (mkLoop 0 0 w) w' H).
Qed.

End ChunkedRuns.

(** ** One-byte characters, end to end *)

Lemma forallb_skipn {A} (p : A -> bool) (n : nat) :
  forall l, forallb p l = true -> forallb p (skipn n l) = true.
Proof.
  induction n as [|n IH]; intros [|x l] H; cbn [skipn]; auto.
  cbn [forallb] in H. apply andb_true_iff in H as [_ H]. now apply IH.
Qed.

Lemma forallb_firstn {A} (p : A -> bool) (n : nat) :
  forall l, forallb p l = true -> forallb p (firstn n l) = true.
Proof.
  induction n as [|n IH]; intros [|x l] H; cbn [firstn forallb]; auto.
  cbn [forallb] in H. apply andb_true_iff in H as [Hx H].
  rewrite Hx. now apply IH.
Qed.

Lemma plain_ascii_not_nul (b : byte) :
  plain_ascii b = true -> Byte.eqb b x00 = false.
Proof. destruct b; (reflexivity || discriminate). Qed.

Lemma plain_ascii_one_byte (b : byte) :
  plain_ascii b = true -> (byteZ b <? 0x80) = true.
Proof.
  unfold plain_ascii. intros H. now apply andb_true_iff in H as [_ H].
Qed.

Lemma utf8_to_utf16_plain_ascii (s : list byte) :
  forallb plain_ascii s = true ->
  utf8_to_utf16 (c_str s) = Some (map byteZ s).
Proof.
  intros H. unfold utf8_to_utf16.
  assert (Hc : c_str s = s).
  { induction s as [|b s IH]; [reflexivity|].
    cbn [forallb] in H. apply andb_true_iff in H as [Hb H].
    cbn [c_str]. rewrite (plain_ascii_not_nul b Hb). now rewrite IH. }
  rewrite Hc. clear Hc.
  assert (Hd : utf8_decode s = Some (map byteZ s)).
  { induction s as [|b s IH]; [reflexivity|].
    cbn [forallb] in H. apply andb_true_iff in H as [Hb H].
    cbn [utf8_decode map]. rewrite (plain_ascii_one_byte b Hb).
    now rewrite (IH H). }
  rewrite Hd. cbn [option_map]. f_equal. clear Hd.
  induction s as [|b s IH]; [reflexivity|].
  cbn [forallb] in H. apply andb_true_iff in H as [Hb H].
  cbn [map flat_map]. rewrite (IH H). unfold utf16_encode.
  apply plain_ascii_one_byte in Hb. apply Z.ltb_lt in Hb.
  replace (byteZ b <? 0x10000) with true by (symmetry; apply Z.ltb_lt; lia).
  reflexivity.
Qed.

Lemma chunk_step_decoded cf self text chunkSize st a units :
  adjustChunkSize text (position st)
    (Z.min chunkSize (size_sub (len text) (position st))) = Some a ->
  chunkSize <> 0 ->
  cf (c_str (substr text (position st) a)) = Some units ->
  events_granted (world st) ->
  exists st',
    chunk_step cf self text chunkSize st = Continue st' /\
    position st' = size_add (position st) a /\
    events_granted (world st') /\
    posted (world st')
    = posted (world st) ++ flat_map (key_pair (_source self)) units.
Proof.
  intros Ha Hcs Hcf Hok.
  unfold chunk_step, inputTextInternal, inputUnicodeText.
  rewrite Ha.
  replace (chunkSize =? 0) with false by (symmetry; now apply Z.eqb_neq).
  rewrite Hcf. eexists. split; [reflexivity|]. cbn [position world].
  split; [reflexivity|].
  match goal with |- context [post_unichars self units ?v] => set (w1 := v) end.
  assert (Hok1 : events_granted w1).
  { apply (events_granted_same (world st)); [apply same_sources_emit|exact Hok]. }
  destruct (post_unichars_granted self units w1 Hok1) as [Ht _].
  assert (Hp2 : posted (post_unichars self units w1)
                = posted (world st)
                  ++ flat_map (key_pair (_source self)) units).
  { unfold posted. rewrite Ht, events_of_app, events_of_key_strokes.
    f_equal. unfold w1, emit. cbn [trace]. rewrite events_of_app. cbn.
    now rewrite app_nil_r. }
  assert (Hok2 : events_granted (post_unichars self units w1)).
  { apply (events_granted_same w1); [apply same_sources_post_unichars|exact Hok1]. }
  destruct (_ <? _).
  - split.
    + apply (events_granted_same (post_unichars self units w1));
        [apply same_sources_emit|exact Hok2].
    + rewrite posted_emit_silent by discriminate. exact Hp2.
  - now split.
Qed.

Lemma chunk_loop_plain_ascii self text chunkSize :
  len text < size_max -> 2 <= chunkSize ->
  forallb plain_ascii text = true ->
  forall (fuel : nat) (st : LoopState),
    0 <= position st <= len text ->
    len text - position st <= Z.of_nat fuel ->
    events_granted (world st) ->
    exists w',
      chunk_loop utf8_to_utf16 fuel self text chunkSize st = Ret (true, w') /\
      posted w'
      = posted (world st)
        ++ flat_map (key_pair (_source self))
                    (map byteZ (skipn (Z.to_nat (position st)) text)).
Proof.
  intros Hmax Hcs Hascii.
  induction fuel as [|fuel IH]; intros st Hpos Hfuel Hok; cbn [chunk_loop].
  - replace (position st <? len text) with false
      by (symmetry; apply Z.ltb_ge; lia).
    exists (world st). split; [reflexivity|].
    rewrite skipn_all2 by (unfold len in *; lia). cbn. now rewrite app_nil_r.
  - destruct (position st <? len text) eqn:Hlt.
    + apply Z.ltb_lt in Hlt.
      destruct (adjusted_size_positive text chunkSize (position st))
        as (a & Ha & Ha1 & Hle); try lia.
      assert (Hchunk : utf8_to_utf16 (c_str (substr text (position st) a))
                       = Some (map byteZ (substr text (position st) a))).
      { apply utf8_to_utf16_plain_ascii. unfold substr.
        now apply forallb_firstn, forallb_skipn. }
      destruct (chunk_step_decoded utf8_to_utf16 self text chunkSize st a _
                  Ha ltac:(lia) Hchunk Hok)
        as (st' & Hstep & Hp & Hok' & Hposted).
      rewrite Hstep. rewrite size_add_small in Hp by lia.
      destruct (IH st') as (w' & Hrun & Hw'); try lia; [exact Hok'|].
      exists w'. split; [exact Hrun|].
      rewrite Hw', Hposted, Hp, <- app_assoc, <- flat_map_app, <- map_app.
      now rewrite substr_then_rest by lia.
    + apply Z.ltb_ge in Hlt. exists (world st). split; [reflexivity|].
      rewrite skipn_all2 by (unfold len in *; lia). cbn. now rewrite app_nil_r.
Qed.

(** X9. A text of one-byte characters other than NUL is typed byte by
    byte: with the injector initialized, every keyboard event granted and
    a chunk size of two bytes or more, inputLargeText returns success
    (within [length text] iterations) and the events posted are one
    key-down / key-up pair per byte of the text, in the order of the text,
    however the text is cut into chunks. *)
Theorem plain_ascii_text_is_typed_byte_by_byte :
  forall self text chunkSize w,
    _isInitialized self = true ->
    events_granted w ->
    forallb plain_ascii text = true ->
    len text < size_max -> 2 <= chunkSize ->
    exists w',
      inputLargeText utf8_to_utf16 (List.length text) self text chunkSize w
      = Ret (true, w') /\
      posted w'
      = posted w ++ flat_map (key_pair (_source self)) (map byteZ text).
Proof.
  intros self text chunkSize w Hinit Hok Hascii Hmax Hcs.
  unfold inputLargeText. rewrite Hinit. cbn [negb].
  destruct text as [|b text'] eqn:Et.
  { exists w. cbn. now rewrite app_nil_r. }
  rewrite <- Et in *. destruct (chunkSize <? len text).
  - unfold inputLargeTextOptimized.
    destruct (chunk_loop_plain_ascii self text chunkSize Hmax Hcs Hascii
                (List.length text) (mkLoop 0 0 w)) as (w' & Hrun & Hw');
      cbn [position world]; try exact Hok.
    + pose proof (len_nonneg text). lia.
    + unfold len. lia.
    + exists w'. split; [exact Hrun|]. exact Hw'.
  - unfold inputTextInternal.
    destruct (inputUnicodeText_types_every_unit_in_order_aux
                utf8_to_utf16 self text (map byteZ text) w Hok
                (utf8_to_utf16_plain_ascii text Hascii))
      as (w' & Hrun & Hw').
    exists w'. rewrite Hrun. now split.
Qed.

(** ** Chunk size zero *)

(** X10. With chunk size 0 and a non-empty text the first iteration of the
    chunk loop calls adjustChunkSize(text, 0, 0), which reads
    [text[SIZE_MAX]], outside the string: the behaviour of inputLargeText
    is undefined, before anything is written or posted. *)
Theorem inputLargeText_chunk_size_zero_is_undefined :
  forall cf fuel self text w,
    _isInitialized self = true ->
    text <> [] ->
    len text < size_max - 1 ->
    adjustChunkSize text 0 0 = None /\
    inputLargeText cf (S fuel) self text 0 w = Undefined.
Proof.
  intros cf fuel self text w Hinit Hne Hmax.
  assert (Hlen : 0 < len text).
  { destruct text; [congruence|]. unfold len. cbn [List.length]. lia. }
  assert (Hadj : adjustChunkSize text 0 0 = None).
  { unfold adjustChunkSize. change (size_add 0 0) with 0.
    replace (len text <=? 0) with false by (symmetry; apply Z.leb_gt; lia).
    change (size_sub 0 1) with (size_max - 1). unfold string_at.
    replace (size_max - 1 <? len text) with false
      by (symmetry; apply Z.ltb_ge; lia).
    rewrite andb_false_r.
    replace (size_max - 1 =? len text) with false
      by (symmetry; apply Z.eqb_neq; lia).
    reflexivity. }
  split; [exact Hadj|].
  unfold inputLargeText. rewrite Hinit. cbn [negb].
  destruct text as [|b text'] eqn:Et; [congruence|]. rewrite <- Et in *.
  replace (0 <? len text) with true by (symmetry; apply Z.ltb_lt; lia).
  unfold inputLargeTextOptimized. cbn [chunk_loop position].
  replace (0 <? len text) with true by (symmetry; apply Z.ltb_lt; lia).
  unfold chunk_step. cbn [position].
  rewrite size_sub_small by (unfold size_max in *; lia).
  rewrite Z.min_l by lia. now rewrite Hadj.
Qed.

(** ** The singleton and its event source *)

Lemma in_remove_nat (h x : nat) (l : list nat) :
  In x (List.remove Nat.eq_dec h l) -> In x l /\ x <> h.
Proof. apply in_remove. Qed.

Lemma NoDup_remove_nat (h : nat) (l : list nat) :
  NoDup l -> NoDup (List.remove Nat.eq_dec h l).
Proof.
  induction l as [|x l IH]; intros H; cbn [List.remove]; [constructor|].
  inversion H as [|? ? Hx Hl]; subst.
  destruct (Nat.eq_dec h x); [now apply IH|].
  constructor; [|now apply IH].
  intros Hin. apply in_remove_nat in Hin. tauto.
Qed.

Lemma remove_fresh_head (h : nat) (l : list nat) :
  ~ In h l -> List.remove Nat.eq_dec h (h :: l) = l.
Proof.
  intros H. cbn [List.remove].
  destruct (Nat.eq_dec h h); [|congruence]. now apply notin_remove.
Qed.

Lemma world_ok_fresh_handle w :
  world_ok w -> ~ In (sourceCalls w) (liveSources w).
Proof. intros (Hlt & _ & _) Hin. apply Hlt in Hin. lia. Qed.

Lemma world_ok_same w w' :
  same_sources w w' -> world_ok w -> world_ok w'.
Proof.
  intros (E1 & _ & E3 & E4 & _) (H1 & H2 & H3). unfold world_ok.
  rewrite E1, E3, E4. now repeat split.
Qed.

Lemma world_ok_getKeyboardSystem w :
  world_ok w -> world_ok (snd (getKeyboardSystem w)).
Proof.
  intros Hok. pose proof (world_ok_fresh_handle w Hok) as Hfresh.
  destruct Hok as (H1 & H2 & H3).
  unfold getKeyboardSystem. destruct (gKeyboardSystem w) as [k|] eqn:Eg.
  { cbn [snd]. unfold world_ok. rewrite Eg. now repeat split. }
  unfold KeyboardInputSystem_new, initialize, CGEventSourceCreate.
  destruct (sourceOk w (sourceCalls w)); cbn [snd]; unfold world_ok; cbn.
  - repeat split.
    + intros h [<- | Hin]; [lia|]. apply H1 in Hin. lia.
    + now constructor.
    + intros k [= <-]. cbn. split; [now left|reflexivity].
  - repeat split.
    + intros h Hin. apply H1 in Hin. lia.
    + exact H2.
    + intros k [= <-]. reflexivity.
Qed.

Lemma world_ok_cleanupKeyboardSystem w :
  world_ok w -> world_ok (cleanupKeyboardSystem w).
Proof.
  intros (H1 & H2 & H3). unfold cleanupKeyboardSystem.
  destruct (gKeyboardSystem w) as [k|] eqn:Eg; [|unfold world_ok; now rewrite Eg].
  unfold KeyboardInputSystem_delete, CFRelease_source, world_ok.
  destruct (_source k) as [h|]; cbn.
  - repeat split; [|now apply NoDup_remove_nat|discriminate].
    intros x Hin. apply in_remove_nat in Hin as [Hin _]. now apply H1.
  - repeat split; [exact H1|exact H2|discriminate].
Qed.

(** X11. getKeyboardSystem constructs the injector once: after a call the
    static pointer holds the injector returned, a second call returns the
    same injector and changes nothing, and CGEventSourceCreate is called
    only when there was no injector, whose initialized flag then says
    whether that one call succeeded.  No event is posted. *)
Theorem getKeyboardSystem_constructs_once :
  forall w,
    gKeyboardSystem (snd (getKeyboardSystem w))
    = Some (fst (getKeyboardSystem w)) /\
    getKeyboardSystem (snd (getKeyboardSystem w)) = getKeyboardSystem w /\
    posted (snd (getKeyboardSystem w)) = posted w /\
    match gKeyboardSystem w with
    | Some k => getKeyboardSystem w = (k, w)
    | None =>
        sourceCalls (snd (getKeyboardSystem w)) = S (sourceCalls w) /\
        _isInitialized (fst (getKeyboardSystem w)) = sourceOk w (sourceCalls w)
    end.
Proof.
  intros w. split; [|split; [|split; [apply getKeyboardSystem_posted|]]].
  - unfold getKeyboardSystem. destruct (gKeyboardSystem w) as [k|] eqn:E;
      [exact E|].
    destruct (KeyboardInputSystem_new w) as [k w1]. reflexivity.
  - unfold getKeyboardSystem at 2 3.
    destruct (gKeyboardSystem w) as [k|] eqn:E; cbn [snd].
    + unfold getKeyboardSystem. now rewrite E.
    + destruct (KeyboardInputSystem_new w) as [k w1]. reflexivity.
  - unfold getKeyboardSystem. destruct (gKeyboardSystem w) as [k|];
      [reflexivity|].
    unfold KeyboardInputSystem_new, initialize, CGEventSourceCreate.
    destruct (sourceOk w (sourceCalls w)); cbn; now split.
Qed.



(** X12. cleanupKeyboardSystem resets the static pointer and releases the
    source the injector held: that source is live no more, every other
    live source stays live, and a second cleanup changes nothing. *)
Theorem cleanupKeyboardSystem_releases_and_resets :
  forall w,
    gKeyboardSystem (cleanupKeyboardSystem w) = None /\
    (forall k h, gKeyboardSystem w = Some k -> _source k = Some h ->
                 ~ In h (liveSources (cleanupKeyboardSystem w))) /\
    (forall h, In h (liveSources w) ->
               (forall k, gKeyboardSystem w = Some k -> _source k <> Some h) ->
               In h (liveSources (cleanupKeyboardSystem w))) /\
    cleanupKeyboardSystem (cleanupKeyboardSystem w) = cleanupKeyboardSystem w.
Proof.
  intros w.
  assert (Hnone : forall v, gKeyboardSystem (cleanupKeyboardSystem v) = None).
  { intros v. unfold cleanupKeyboardSystem.
    destruct (gKeyboardSystem v) as [k|] eqn:E; [|exact E].
    unfold KeyboardInputSystem_delete. destruct (_source k); reflexivity. }
  assert (Hid : forall v, gKeyboardSystem v = None -> cleanupKeyboardSystem v = v).
  { intros v E. unfold cleanupKeyboardSystem. now rewrite E. }
  split; [apply Hnone|]. split; [|split; [|apply Hid, Hnone]].
  - intros k h Eg Hs. unfold cleanupKeyboardSystem. rewrite Eg.
    unfold KeyboardInputSystem_delete, CFRelease_source. rewrite Hs. cbn.
    apply remove_In.
  - intros h Hin Hne. unfold cleanupKeyboardSystem.
    destruct (gKeyboardSystem w) as [k|] eqn:Eg; [|exact Hin].
    specialize (Hne k eq_refl).
    unfold KeyboardInputSystem_delete, CFRelease_source.
    destruct (_source k) as [h'|]; cbn; [|exact Hin].
    apply in_in_remove; [congruence|exact Hin].
Qed.

Lemma getKeyboardSystem_no_session w :
  gKeyboardSystem w = None ->
  sourceOk w (sourceCalls w) = false ->
  getKeyboardSystem w
  = (mkKeyboard None false,
     emit (Cout AxSystemInitialized)
       (set_gKeyboardSystem (Some (mkKeyboard None false))
          (mkWorld (trace w) (eventCalls w) (eventOk w) (S (sourceCalls w))
                   (sourceOk w) (liveSources w) (gKeyboardSystem w)))).
Proof.
  intros Eg Hno. unfold getKeyboardSystem. rewrite Eg.
  unfold KeyboardInputSystem_new, initialize, CGEventSourceCreate.
  now rewrite Hno.
Qed.


Section SingletonProperties.

Variable cf : list byte -> option (list Z).

Lemma same_sources_inputLargeText fuel self text chunkSize w result w' :
  inputLargeText cf fuel self text chunkSize w = Ret (result, w') ->
  same_sources w w'.
Proof.
  unfold inputLargeText. destruct (negb (_isInitialized self)).
  { intros [= _ <-]. apply same_sources_emit. }
  destruct text as [|b text'] eqn:Et.
  { intros [= _ <-]. apply same_sources_refl. }
  rewrite <- Et. destruct (chunkSize <? len text).
  - apply same_sources_chunk_loop.
  - pose proof (same_sources_inputTextInternal cf self text w) as Hs.
    destruct (inputTextInternal cf self text w) as [r v].
    intros [= _ <-]. exact Hs.
Qed.

(** What simulateKeyboardInput does to the sources: what its one call of
    getKeyboardSystem does. *)
Lemma simulateKeyboardInput_sources fuel text w result w' :
  AxInsertBinding.simulateKeyboardInput cf fuel text w = Ret (result, w') ->
  same_sources
    (snd (getKeyboardSystem (emit (Cout (AxSimStart (len text))) w))) w'.
Proof.
  unfold AxInsertBinding.simulateKeyboardInput.
  destruct (getKeyboardSystem _) as [keyboard w1]. cbn [snd].
  destruct (negb (_isInitialized keyboard)).
  { intros [= _ <-]. apply same_sources_emit. }
  destruct (inputLargeText cf fuel keyboard text default_chunkSize w1)
    as [[r w2]| |] eqn:E; try discriminate.
  intros [= _ <-].
  eapply same_sources_trans;
    [apply (same_sources_inputLargeText _ _ _ _ _ _ _ E)|apply same_sources_emit].
Qed.

Lemma world_ok_simulateKeyboardInput fuel text w result w' :
  world_ok w ->
  AxInsertBinding.simulateKeyboardInput cf fuel text w = Ret (result, w') ->
  world_ok w'.
Proof.
  intros Hok H.
  apply (world_ok_same _ _ (simulateKeyboardInput_sources _ _ _ _ _ H)).
  apply world_ok_getKeyboardSystem.
  apply (world_ok_same w); [apply same_sources_emit|exact Hok].
Qed.

Lemma simulateKeyboardInput_uninitialized fuel text w k :
  gKeyboardSystem w = Some k ->
  _isInitialized k = false ->
  exists w',
    AxInsertBinding.simulateKeyboardInput cf fuel text w = Ret (false, w') /\
    gKeyboardSystem w' = Some k /\
    sourceCalls w' = sourceCalls w /\
    liveSources w' = liveSources w /\
    posted w' = posted w.
Proof.
  intros Eg Hk. unfold AxInsertBinding.simulateKeyboardInput, getKeyboardSystem.
  cbn [emit gKeyboardSystem]. rewrite Eg, Hk. cbn [negb].
  eexists. split; [reflexivity|]. cbn.
  repeat split; try exact Eg.
  unfold posted. cbn. rewrite !events_of_app. cbn. now rewrite !app_nil_r.
Qed.

Lemma simulate_each_uninitialized fuel k :
  _isInitialized k = false ->
  forall texts w,
    gKeyboardSystem w = Some k ->
    exists w',
      simulate_each cf fuel texts w = Ret (map (fun _ => false) texts, w') /\
      gKeyboardSystem w' = Some k /\
      sourceCalls w' = sourceCalls w /\
      liveSources w' = liveSources w /\
      posted w' = posted w.
Proof.
  intros Hk. induction texts as [|text rest IH]; intros w Eg.
  - exists w. now repeat split.
  - destruct (simulateKeyboardInput_uninitialized fuel text w k Eg Hk)
      as (w1 & Hrun & Eg1 & Hc1 & Hl1 & Hp1).
    destruct (IH w1 Eg1) as (w2 & Hrest & Eg2 & Hc2 & Hl2 & Hp2).
    exists w2. cbn [simulate_each map]. rewrite Hrun, Hrest.
    repeat split; congruence.
Qed.

(** X13. An initialization that failed is kept.  When an insertion finds
    no injector and the platform refuses the event source, the call
    returns failure and leaves the static pointer on an injector that is
    not initialized and holds no source.  From then on, and from any world
    whose injector is not initialized, every insertion and every run of
    insertions returns failure, leaves that same injector in place, posts
    nothing, and calls CGEventSourceCreate no more. *)
Theorem failed_initialization_is_not_retried :
  (forall fuel text w,
      gKeyboardSystem w = None ->
      sourceOk w (sourceCalls w) = false ->
      exists w1,
        AxInsertBinding.simulateKeyboardInput cf fuel text w = Ret (false, w1) /\
        gKeyboardSystem w1 = Some (mkKeyboard None false) /\
        sourceCalls w1 = S (sourceCalls w) /\
        liveSources w1 = liveSources w /\
        posted w1 = posted w /\
        forall fuel' texts,
        exists w2,
          simulate_each cf fuel' texts w1
          = Ret (map (fun _ => false) texts, w2) /\
          gKeyboardSystem w2 = Some (mkKeyboard None false) /\
          sourceCalls w2 = S (sourceCalls w) /\
          liveSources w2 = liveSources w /\
          posted w2 = posted w)
  /\
  (forall fuel text w k,
      gKeyboardSystem w = Some k ->
      _isInitialized k = false ->
      exists w',
        AxInsertBinding.simulateKeyboardInput cf fuel text w = Ret (false, w') /\
        gKeyboardSystem w' = Some k /\
        sourceCalls w' = sourceCalls w /\
        liveSources w' = liveSources w /\
        posted w' = posted w).
Proof.
  split; [|intros fuel text w k; apply simulateKeyboardInput_uninitialized].
  intros fuel text w Eg Hno.
  unfold AxInsertBinding.simulateKeyboardInput.
  rewrite (getKeyboardSystem_no_session
             (emit (Cout (AxSimStart (len text))) w) Eg Hno).
  cbn [_isInitialized negb].
  eexists. split; [reflexivity|].
  assert (Hp : forall t1 t2 t3,
             events_of ((((trace w ++ t1) ++ t2) ++ t3))
             = events_of (trace w) ++ events_of t1 ++ events_of t2
               ++ events_of t3).
  { intros. now rewrite !events_of_app, <- !app_assoc. }
  split; [reflexivity|]. split; [reflexivity|]. split; [reflexivity|].
  split.
  { unfold posted. cbn. rewrite Hp. cbn. now rewrite app_nil_r. }
  intros fuel' texts.
  match goal with |- context [simulate_each cf fuel' texts ?v] =>
    destruct (simulate_each_uninitialized fuel' (mkKeyboard None false)
                eq_refl texts v eq_refl) as (w2 & Hrun & Eg2 & Hc & Hl & Hp2)
  end.
  exists w2. split; [exact Hrun|]. split; [exact Eg2|].
  split; [exact Hc|]. split; [exact Hl|].
  rewrite Hp2. unfold posted. cbn. rewrite Hp. cbn. now rewrite app_nil_r.
Qed.


(** X15. The bookkeeping of event sources stays sound: a fresh process
    satisfies [world_ok], and getKeyboardSystem, cleanupKeyboardSystem,
    InsertText and CheckPermissions all keep it.  In particular the
    injector the static pointer names never holds a source that has been
    released. *)
Theorem world_ok_is_kept :
  world_ok world_fresh /\
  (forall w, world_ok w -> world_ok (snd (getKeyboardSystem w))) /\
  (forall w, world_ok w -> world_ok (cleanupKeyboardSystem w)) /\
  (forall fuel info w r w',
      world_ok w ->
      AxInsertBinding.InsertText cf fuel info w = Ret (r, w') ->
      world_ok w') /\
  (forall apple info w,
      world_ok w ->
      world_ok (snd (AxInsertPermissions.CheckPermissions apple info w))).
Proof.
  split; [|split; [exact world_ok_getKeyboardSystem|
                   split; [exact world_ok_cleanupKeyboardSystem|split]]].
  - unfold world_ok, world_fresh. cbn.
    repeat split; [tauto|constructor|discriminate].
  - intros fuel info w r w' Hok. unfold AxInsertBinding.InsertText.
    destruct info as [|[| | | | |args] rest]; try (intros [= _ <-]; exact Hok).
    destruct (Utf8Value (Get args "text")) as [text|]; [|discriminate].
    destruct (match Get args "targetApp" with
              | JsUndefined => Some [] | v => Utf8Value v end);
      [|discriminate].
    destruct (AxInsertBinding.simulateKeyboardInput cf fuel text _)
      as [[s w1]| |] eqn:E; try discriminate.
    intros [= _ <-].
    apply (world_ok_simulateKeyboardInput _ _ _ _ _
             (world_ok_same w _ (same_sources_emit _ w) Hok) E).
  - intros apple info w Hok.
    pose proof (world_ok_fresh_handle w Hok) as Hfresh.
    destruct Hok as (H1 & H2 & H3).
    unfold AxInsertPermissions.CheckPermissions.
    destruct apple; [|cbn [snd]; now repeat split].
    unfold CGEventSourceCreate.
    destruct (sourceOk w (sourceCalls w)); cbn [snd].
    + unfold CFRelease_source, world_ok. cbn.
      destruct (Nat.eq_dec (sourceCalls w) (sourceCalls w)); [|congruence].
      rewrite notin_remove by exact Hfresh.
      repeat split; [|exact H2|exact H3].
      intros h Hin. apply H1 in Hin. lia.
    + unfold world_ok. cbn. repeat split; [|exact H2|exact H3].
      intros h Hin. apply H1 in Hin. lia.
Qed.

(** X16. InsertText looks at the [text] of its first argument only: two
    calls whose first arguments are objects with the same [text], each
    with a [targetApp] that is absent or a string, and with any further
    arguments, do the same thing and return the same value. *)
Theorem InsertText_ignores_targetApp :
  forall fuel args args' rest rest' w,
    Get args "text" = Get args' "text" ->
    (Get args "targetApp" = JsUndefined \/
     exists app, Get args "targetApp" = JsString app) ->
    (Get args' "targetApp" = JsUndefined \/
     exists app, Get args' "targetApp" = JsString app) ->
    AxInsertBinding.InsertText cf fuel (JsObject args :: rest) w
    = AxInsertBinding.InsertText cf fuel (JsObject args' :: rest') w.
Proof.
  intros fuel args args' rest rest' w Ht Ha Ha'.
  unfold AxInsertBinding.InsertText. rewrite Ht.
  destruct (Utf8Value (Get args' "text")); [|reflexivity].
  destruct Ha as [-> | [app ->]], Ha' as [-> | [app' ->]]; reflexivity.
Qed.

(** X17. InsertText throws its own TypeError exactly when its first
    argument is missing or is no object; it then returns null and has done
    nothing: no line is written, no injector is constructed, no event is
    posted.  A call that passes the guard and returns leaves no exception
    of InsertText's own.  (A [text] or [targetApp] that is present but no
    string is outside the model, see [InsertText].) *)
Theorem InsertText_throws_only_without_object :
  forall fuel info w r w',
    AxInsertBinding.InsertText cf fuel info w = Ret (r, w') ->
    match info with
    | JsObject _ :: _ => exception r = None
    | _ => r = mkReturn JsNull (Some AxInsertBinding.error_argument) /\ w' = w
    end.
Proof.
  intros fuel info w r w'. unfold AxInsertBinding.InsertText.
  destruct info as [|[| | | | |args] rest];
    try (intros [= <- <-]; now split).
  destruct (Utf8Value (Get args "text")) as [text|]; [|discriminate].
  destruct (match Get args "targetApp" with
            | JsUndefined => Some [] | v => Utf8Value v end);
    [|discriminate].
  destruct (AxInsertBinding.simulateKeyboardInput cf fuel text _)
    as [[s w1]| |]; try discriminate.
  now intros [= <- _].
Qed.

End SingletonProperties.

(** ** checkPermissions *)

(** X18. CheckPermissions reports whether an event source can be created
    right now, and keeps nothing: [hasAccessibility] is the outcome of its
    one CGEventSourceCreate call, [error] is null exactly when it is true,
    the one thing added to the trace is the line on [std::cout] that says
    which it was, and in a world the program has built the sources that
    are live, the events posted, the singleton and the keyboard event
    count are afterwards as they were before.  The arguments of the call
    are not looked at. *)
Theorem CheckPermissions_probes_and_releases :
  forall info w,
    world_ok w ->
    exists w',
      AxInsertPermissions.CheckPermissions true info w
      = (JsObject
           [("hasAccessibility"%string, JsBoolean (sourceOk w (sourceCalls w)));
            ("error"%string,
             if sourceOk w (sourceCalls w) then JsNull
             else JsString AxInsertPermissions.error_permission)],
         w') /\
      trace w'
      = trace w ++ [Cout (if sourceOk w (sourceCalls w)
                          then AxPermissionGranted else AxPermissionDenied)] /\
      posted w' = posted w /\
      sourceCalls w' = S (sourceCalls w) /\
      liveSources w' = liveSources w /\
      eventCalls w' = eventCalls w /\
      gKeyboardSystem w' = gKeyboardSystem w.
Proof.
  intros info w Hok. pose proof (world_ok_fresh_handle w Hok) as Hfresh.
  unfold AxInsertPermissions.CheckPermissions, CGEventSourceCreate.
  destruct (sourceOk w (sourceCalls w)).
  - eexists. split; [reflexivity|]. unfold CFRelease_source, posted. cbn.
    rewrite events_of_app. cbn. rewrite app_nil_r.
    repeat split. now apply remove_fresh_head.
  - eexists. split; [reflexivity|]. unfold posted. cbn.
    rewrite events_of_app. cbn. rewrite app_nil_r. now repeat split.
Qed.

(** ** Texts of one- and two-byte characters *)

Lemma plain_ascii_facts (b : byte) :
  plain_ascii b = true ->
  is_lead b = false /\ (byteZ b <? 0x80) = true /\ Byte.eqb b x00 = false.
Proof. destruct b; intros H; (discriminate H || now repeat split). Qed.

Lemma lead2_facts (l : byte) :
  in_range 0xC2 0xDF l = true ->
  is_lead l = true /\ (byteZ l <? 0x80) = false /\ Byte.eqb l x00 = false /\
  0 <= Z.shiftl (Z.land (byteZ l) 0x1F) 6 <= 0x7C0.
Proof.
  destruct l; intros H; (discriminate H || (repeat split; vm_compute; congruence)).
Qed.

Lemma continuation_facts (t : byte) :
  is_continuation t = true ->
  is_lead t = false /\ Byte.eqb t x00 = false /\ 0 <= low6 t <= 63.
Proof.
  destruct t; intros H; (discriminate H || (repeat split; vm_compute; congruence)).
Qed.

Lemma is_char12_cases (c : list byte) :
  is_char12 c = true ->
  (exists b, c = [b] /\ plain_ascii b = true) \/
  (exists l t, c = [l; t] /\ in_range 0xC2 0xDF l = true /\
               is_continuation t = true).
Proof.
  destruct c as [|b [|t [|x r]]]; cbn [is_char12]; try discriminate.
  - intros H. left. now exists b.
  - intros H. apply andb_true_iff in H as [Hl Ht]. right. now exists b, t.
Qed.

Lemma c_str_chars12 (chars : list (list byte)) :
  forallb is_char12 chars = true ->
  c_str (List.concat chars) = List.concat chars.
Proof.
  induction chars as [|c chars IH]; [reflexivity|].
  cbn [forallb]. intros H. apply andb_true_iff in H as [Hc H].
  cbn [List.concat].
  destruct (is_char12_cases c Hc) as [(b & -> & Hb) | (l & t & -> & Hl & Ht)].
  - destruct (plain_ascii_facts b Hb) as (_ & _ & Hn).
    cbn [app c_str]. rewrite Hn. now rewrite IH.
  - destruct (lead2_facts l Hl) as (_ & _ & Hn & _).
    destruct (continuation_facts t Ht) as (_ & Hn' & _).
    cbn [app c_str]. rewrite Hn, Hn'. now rewrite IH.
Qed.

Lemma utf8_decode_chars12 (chars : list (list byte)) :
  forallb is_char12 chars = true ->
  utf8_decode (List.concat chars) = Some (map code_point12 chars).
Proof.
  induction chars as [|c chars IH]; [reflexivity|].
  cbn [forallb]. intros H. apply andb_true_iff in H as [Hc H].
  cbn [List.concat map].
  destruct (is_char12_cases c Hc) as [(b & -> & Hb) | (l & t & -> & Hl & Ht)].
  - destruct (plain_ascii_facts b Hb) as (_ & H80 & _).
    cbn [app utf8_decode]. rewrite H80. now rewrite (IH H).
  - destruct (lead2_facts l Hl) as (_ & H80 & _ & _).
    cbn [app utf8_decode]. rewrite H80, Hl, Ht. now rewrite (IH H).
Qed.

Lemma code_point12_small (c : list byte) :
  is_char12 c = true -> utf16_encode (code_point12 c) = [code_point12 c].
Proof.
  intros Hc. unfold utf16_encode.
  replace (code_point12 c <? 0x10000) with true; [reflexivity|].
  symmetry. apply Z.ltb_lt.
  destruct (is_char12_cases c Hc) as [(b & -> & Hb) | (l & t & -> & Hl & Ht)];
    cbn [code_point12].
  - destruct (plain_ascii_facts b Hb) as (_ & H80 & _).
    apply Z.ltb_lt in H80. lia.
  - destruct (lead2_facts l Hl) as (_ & _ & _ & Hb).
    destruct (continuation_facts t Ht) as (_ & _ & Hb'). lia.
Qed.

Lemma utf8_to_utf16_chars12 (chars : list (list byte)) :
  forallb is_char12 chars = true ->
  utf8_to_utf16 (c_str (List.concat chars)) = Some (map code_point12 chars).
Proof.
  intros H. unfold utf8_to_utf16.
  rewrite (c_str_chars12 chars H), (utf8_decode_chars12 chars H).
  cbn [option_map]. f_equal.
  induction chars as [|c chars IH]; [reflexivity|].
  cbn [forallb] in H. apply andb_true_iff in H as [Hc H].
  cbn [map flat_map]. now rewrite (code_point12_small c Hc), (IH H).
Qed.

(** Cutting [n] bytes off a run of such characters, and one byte less when
    the byte before the cut is a lead byte, cuts between two characters. *)
Lemma chars12_cut (chars : list (list byte)) :
  forallb is_char12 chars = true ->
  forall n : nat,
    (1 <= n)%nat -> (n < List.length (List.concat chars))%nat ->
    exists taken rest c,
      chars = taken ++ rest /\
      nth_error (List.concat chars) (n - 1) = Some c /\
      List.length (List.concat taken) = if is_lead c then (n - 1)%nat else n.
Proof.
  induction chars as [|ch chars IH]; intros H n Hn Hlt.
  { cbn in Hlt. lia. }
  cbn [forallb] in H. apply andb_true_iff in H as [Hc H].
  cbn [List.concat] in *.
  destruct (is_char12_cases ch Hc) as [(b & -> & Hb) | (l & t & -> & Hl & Ht)].
  - destruct (plain_ascii_facts b Hb) as (Hnl & _ & _).
    destruct (Nat.eq_dec n 1) as [->|Hn1].
    + exists [[b]], chars, b. cbn. rewrite Hnl. now repeat split.
    + cbn [app List.length] in Hlt.
      destruct (IH H (n - 1)%nat) as (taken & rest & c & -> & Hnth & Hlen);
        try lia.
      exists ([b] :: taken), rest, c. split; [reflexivity|]. split.
      * replace (n - 1)%nat with (S (n - 1 - 1)) by lia. exact Hnth.
      * cbn [List.concat app List.length]. rewrite Hlen.
        destruct (is_lead c); lia.
  - destruct (lead2_facts l Hl) as (Hlead & _ & _ & _).
    destruct (continuation_facts t Ht) as (Hnl & _ & _).
    destruct (Nat.eq_dec n 1) as [->|Hn1];
      [|destruct (Nat.eq_dec n 2) as [->|Hn2]].
    + exists [], ([l; t] :: chars), l. cbn. rewrite Hlead. now repeat split.
    + exists [[l; t]], chars, t. cbn. rewrite Hnl. now repeat split.
    + cbn [app List.length] in Hlt.
      destruct (IH H (n - 2)%nat) as (taken & rest & c & -> & Hnth & Hlen);
        try lia.
      exists ([l; t] :: taken), rest, c. split; [reflexivity|]. split.
      * replace (n - 1)%nat with (S (S (n - 2 - 1))) by lia. exact Hnth.
      * cbn [List.concat app List.length]. rewrite Hlen.
        destruct (is_lead c); lia.
Qed.

Lemma firstn_exact {A} (l1 l2 : list A) :
  firstn (List.length l1) (l1 ++ l2) = l1.
Proof.
  rewrite firstn_app, Nat.sub_diag, firstn_all. cbn. apply app_nil_r.
Qed.

Lemma skipn_exact {A} (l1 l2 : list A) :
  skipn (List.length l1) (l1 ++ l2) = l2.
Proof.
  rewrite skipn_app, Nat.sub_diag, skipn_all. reflexivity.
Qed.

Lemma chunk_loop_chars12 self text chunkSize :
  len text < size_max -> 2 <= chunkSize ->
  forall (fuel : nat) (st : LoopState) (todo : list (list byte)),
    forallb is_char12 todo = true ->
    skipn (Z.to_nat (position st)) text = List.concat todo ->
    0 <= position st <= len text ->
    len text - position st <= Z.of_nat fuel ->
    events_granted (world st) ->
    exists w',
      chunk_loop utf8_to_utf16 fuel self text chunkSize st = Ret (true, w') /\
      posted w'
      = posted (world st)
        ++ flat_map (key_pair (_source self)) (map code_point12 todo).
Proof.
  intros Hmax Hcs.
  induction fuel as [|fuel IH]; intros st todo Htodo Hskip Hpos Hfuel Hok;
    cbn [chunk_loop].
  - replace (position st <? len text) with false
      by (symmetry; apply Z.ltb_ge; lia).
    exists (world st). split; [reflexivity|].
    rewrite skipn_all2 in Hskip by (unfold len in *; lia).
    destruct todo as [|c todo]; [cbn; now rewrite app_nil_r|].
    cbn [forallb] in Htodo. apply andb_true_iff in Htodo as [Hc _].
    destruct (is_char12_cases c Hc) as [(b & -> & _) | (l & t & -> & _)];
      discriminate.
  - destruct (position st <? len text) eqn:Hlt.
    2:{ apply Z.ltb_ge in Hlt. exists (world st). split; [reflexivity|].
        rewrite skipn_all2 in Hskip by (unfold len in *; lia).
        destruct todo as [|c todo]; [cbn; now rewrite app_nil_r|].
        cbn [forallb] in Htodo. apply andb_true_iff in Htodo as [Hc _].
        destruct (is_char12_cases c Hc) as [(b & -> & _) | (l & t & -> & _)];
          discriminate. }
    apply Z.ltb_lt in Hlt.
    destruct (adjusted_size_positive text chunkSize (position st))
      as (a & Ha & Ha1 & Hle); try lia.
    assert (Hlen_todo : List.length (List.concat todo)
                        = Z.to_nat (len text - position st)).
    { rewrite <- Hskip, length_skipn. unfold len. lia. }
    assert (Hcut : exists taken rest,
               todo = taken ++ rest /\
               List.length (List.concat taken) = Z.to_nat a).
    { destruct (adjusted_size_cases text chunkSize (position st))
        as (a' & Ha' & Hcase); try lia.
      rewrite Ha in Ha'. injection Ha' as <-.
      destruct Hcase as [(Hin & c & Hnth & ->) | (Hend & ->)].
      - destruct (chars12_cut todo Htodo (Z.to_nat chunkSize))
          as (taken & rest & c' & -> & Hnth' & Hlen); try lia.
        rewrite <- Hskip, nth_error_skipn in Hnth'.
        replace (Z.to_nat (position st) + (Z.to_nat chunkSize - 1))%nat
          with (Z.to_nat (position st + chunkSize - 1)) in Hnth' by lia.
        rewrite Hnth in Hnth'. injection Hnth' as <-.
        exists taken, rest. split; [reflexivity|]. rewrite Hlen.
        destruct (is_lead c); lia.
      - exists todo, []. rewrite app_nil_r. split; [reflexivity|].
        exact Hlen_todo. }
    destruct Hcut as (taken & rest & -> & Hlen).
    rewrite forallb_app in Htodo. apply andb_true_iff in Htodo as [Htaken Hrest].
    assert (Hchunk : substr text (position st) a = List.concat taken).
    { unfold substr. rewrite Hskip, concat_app, <- Hlen. apply firstn_exact. }
    assert (Hdec : utf8_to_utf16 (c_str (substr text (position st) a))
                   = Some (map code_point12 taken)).
    { rewrite Hchunk. now apply utf8_to_utf16_chars12. }
    destruct (chunk_step_decoded utf8_to_utf16 self text chunkSize st a _
                Ha ltac:(lia) Hdec Hok)
      as (st' & Hstep & Hp & Hok' & Hposted).
    rewrite Hstep. rewrite size_add_small in Hp by lia.
    destruct (IH st' rest Hrest) as (w' & Hrun & Hw'); try lia; try exact Hok'.
    { rewrite Hp.
      replace (Z.to_nat (position st + a))
        with (Z.to_nat a + Z.to_nat (position st))%nat by lia.
      rewrite <- skipn_skipn, Hskip, concat_app, <- Hlen. apply skipn_exact. }
    exists w'. split; [exact Hrun|].
    now rewrite Hw', Hposted, <- app_assoc, <- flat_map_app, <- map_app.
Qed.

(** X19. The one-byte backoff is enough for characters of at most two
    bytes.  A text made of such characters (NUL excluded) is typed
    completely and in order: with the injector initialized, every keyboard
    event granted and a chunk size of two bytes or more, no chunk ends
    inside a character, inputLargeText returns success, and the events
    posted are one key-down / key-up pair per character, carrying its
    scalar value. *)
Theorem two_byte_characters_are_never_split :
  forall self chars chunkSize w,
    _isInitialized self = true ->
    events_granted w ->
    forallb is_char12 chars = true ->
    len (List.concat chars) < size_max -> 2 <= chunkSize ->
    exists w',
      inputLargeText utf8_to_utf16 (List.length (List.concat chars)) self
                     (List.concat chars) chunkSize w = Ret (true, w') /\
      posted w'
      = posted w ++ flat_map (key_pair (_source self)) (map code_point12 chars).
Proof.
  intros self chars chunkSize w Hinit Hok Hchars Hmax Hcs.
  unfold inputLargeText. rewrite Hinit. cbn [negb].
  destruct (List.concat chars) as [|b text'] eqn:Et.
  { exists w. split; [reflexivity|].
    destruct chars as [|c chars]; [cbn; now rewrite app_nil_r|].
    cbn [forallb] in Hchars. apply andb_true_iff in Hchars as [Hc _].
    cbn [List.concat] in Et.
    destruct (is_char12_cases c Hc) as [(x & -> & _) | (l & t & -> & _)];
      discriminate. }
  rewrite <- Et in *. destruct (chunkSize <? len (List.concat chars)).
  - unfold inputLargeTextOptimized.
    destruct (chunk_loop_chars12 self (List.concat chars) chunkSize Hmax Hcs
                (List.length (List.concat chars)) (mkLoop 0 0 w) chars)
      as (w' & Hrun & Hw'); cbn [position world]; try assumption.
    + reflexivity.
    + pose proof (len_nonneg (List.concat chars)). lia.
    + unfold len. lia.
    + now exists w'.
  - unfold inputTextInternal.
    destruct (inputUnicodeText_types_every_unit_in_order_aux
                utf8_to_utf16 self (List.concat chars) (map code_point12 chars)
                w Hok (utf8_to_utf16_chars12 chars Hchars))
      as (w' & Hrun & Hw').
    exists w'. rewrite Hrun. now split.
Qed.

(** ** The further properties at concrete inputs *)

Lemma inputLargeText_leaves_sources_alone_witness :
  exists result w',
    inputLargeText utf8_to_utf16 2 keyboard_ready text_short_split 4 world_fresh
    = Ret (result, w') /\
    same_sources world_fresh w' /\ extends world_fresh w' /\
    (eventCalls world_fresh <= eventCalls w')%nat.
Proof.
  eexists _, _. split; [vm_compute; reflexivity|].
  eapply (inputLargeText_leaves_sources_alone utf8_to_utf16 2 keyboard_ready
            text_short_split 4 world_fresh).
  vm_compute. reflexivity.
Defined.

Lemma inputUnicodeText_types_every_unit_in_order_witness :
  events_granted world_fresh /\
  utf8_to_utf16 (c_str text_e_acute) = Some [0xE9] /\
  exists w',
    inputUnicodeText utf8_to_utf16 keyboard_ready text_e_acute world_fresh
    = (true, w') /\
    trace w' = trace world_fresh
               ++ flat_map (key_stroke (_source keyboard_ready)) [0xE9] /\
    posted w' = posted world_fresh
                ++ flat_map (key_pair (_source keyboard_ready)) [0xE9] /\
    eventCalls w' = (eventCalls world_fresh + 2 * List.length [0xE9])%nat.
Proof.
  split; [intros n; reflexivity|]. split; [reflexivity|].
  apply (inputUnicodeText_types_every_unit_in_order utf8_to_utf16
           keyboard_ready text_e_acute [0xE9] world_fresh).
  - intros n. reflexivity.
  - reflexivity.
Defined.

Lemma inputUnicodeText_stops_at_first_nul_witness :
  forallb not_nul [x61] = true /\
  inputUnicodeText utf8_to_utf16 keyboard_ready ([x61] ++ x00 :: [x62])
                   world_fresh
  = inputUnicodeText utf8_to_utf16 keyboard_ready [x61] world_fresh.
Proof.
  split; [reflexivity|].
  apply (inputUnicodeText_stops_at_first_nul utf8_to_utf16 keyboard_ready
           [x61] [x62] world_fresh).
  reflexivity.
Defined.

Lemma inputLargeText_returns_for_sizes_from_two_witness :
  len text_short_split < size_max /\
  exists result w',
    extends world_fresh w' /\
    forall fuel, (List.length text_short_split <= fuel)%nat ->
      inputLargeText utf8_to_utf16 fuel keyboard_ready text_short_split 4
                     world_fresh = Ret (result, w').
Proof.
  split; [reflexivity|].
  apply (inputLargeText_returns_for_sizes_from_two utf8_to_utf16
           keyboard_ready text_short_split 4 world_fresh); [reflexivity|lia].
Defined.

Lemma inputLargeTextOptimized_posts_the_chunks_in_order_witness :
  events_granted world_fresh /\
  exists w' chunks decoded,
    inputLargeTextOptimized utf8_to_utf16 2 keyboard_ready text_abcdab 4
                            world_fresh = Ret (true, w') /\
    chunking 2 text_abcdab 4 0 = Ret chunks /\
    Forall2 (fun c units => utf8_to_utf16 (c_str c) = Some units)
            chunks decoded /\
    posted w'
    = posted world_fresh
      ++ flat_map (key_pair (_source keyboard_ready)) (List.concat decoded).
Proof.
  split; [intros n; reflexivity|].
  assert (Hrun : exists w',
             inputLargeTextOptimized utf8_to_utf16 2 keyboard_ready
               text_abcdab 4 world_fresh = Ret (true, w'))
    by (eexists; vm_compute; reflexivity).
  destruct Hrun as [w' Hrun].
  destruct (inputLargeTextOptimized_posts_the_chunks_in_order utf8_to_utf16 2
              keyboard_ready text_abcdab 4 world_fresh w'
              (fun n => eq_refl) Hrun) as (chunks & decoded & H1 & H2 & H3).
  exists w', chunks, decoded.
  split; [exact Hrun|split; [exact H1|split; [exact H2|exact H3]]].
Defined.

Lemma inputLargeTextOptimized_sleeps_between_chunks_witness :
  exists w' chunks,
    inputLargeTextOptimized utf8_to_utf16 2 keyboard_ready text_abcdab 4
                            world_fresh = Ret (true, w') /\
    chunking 2 text_abcdab 4 0 = Ret chunks /\
    interchunk_sleeps (trace w')
    = (interchunk_sleeps (trace world_fresh) + pred (List.length chunks))%nat.
Proof.
  assert (Hrun : exists w',
             inputLargeTextOptimized utf8_to_utf16 2 keyboard_ready
               text_abcdab 4 world_fresh = Ret (true, w'))
    by (eexists; vm_compute; reflexivity).
  destruct Hrun as [w' Hrun].
  destruct (inputLargeTextOptimized_sleeps_between_chunks utf8_to_utf16 2
              keyboard_ready text_abcdab 4 world_fresh w' Hrun)
    as (chunks & H1 & H2).
  exists w', chunks. split; [exact Hrun|split; [exact H1|exact H2]].
Defined.

Lemma plain_ascii_text_is_typed_byte_by_byte_witness :
  _isInitialized keyboard_ready = true /\
  events_granted world_fresh /\
  forallb plain_ascii text_abcdab = true /\
  exists w',
    inputLargeText utf8_to_utf16 (List.length text_abcdab) keyboard_ready
                   text_abcdab 4 world_fresh = Ret (true, w') /\
    posted w'
    = posted world_fresh
      ++ flat_map (key_pair (_source keyboard_ready)) (map byteZ text_abcdab).
Proof.
  split; [reflexivity|]. split; [intros n; reflexivity|].
  split; [reflexivity|].
  apply (plain_ascii_text_is_typed_byte_by_byte keyboard_ready text_abcdab 4
           world_fresh).
  - reflexivity.
  - intros n. reflexivity.
  - reflexivity.
  - reflexivity.
  - lia.
Defined.

Lemma inputLargeText_chunk_size_zero_is_undefined_witness :
  _isInitialized keyboard_ready = true /\
  len [x61] < size_max - 1 /\
  adjustChunkSize [x61] 0 0 = None /\
  inputLargeText utf8_to_utf16 1 keyboard_ready [x61] 0 world_fresh = Undefined.
Proof.
  split; [reflexivity|]. split; [reflexivity|].
  apply (inputLargeText_chunk_size_zero_is_undefined utf8_to_utf16 0
           keyboard_ready [x61] world_fresh).
  - reflexivity.
  - discriminate.
  - reflexivity.
Defined.

Lemma failed_initialization_is_not_retried_witness :
  gKeyboardSystem world_no_session = None /\
  sourceOk world_no_session (sourceCalls world_no_session) = false /\
  exists w1,
    AxInsertBinding.simulateKeyboardInput utf8_to_utf16 0 [x61]
      world_no_session = Ret (false, w1) /\
    gKeyboardSystem w1 = Some (mkKeyboard None false) /\
    exists w2,
      simulate_each utf8_to_utf16 0 [[x61]; text_abc; text_e_acute] w1
      = Ret ([false; false; false], w2) /\
      gKeyboardSystem w2 = Some (mkKeyboard None false) /\
      sourceCalls w2 = 1%nat /\
      posted w2 = [].
Proof.
  split; [reflexivity|]. split; [reflexivity|].
  destruct (proj1 (failed_initialization_is_not_retried utf8_to_utf16)
              0%nat [x61] world_no_session eq_refl eq_refl)
    as (w1 & Hrun & Eg & _ & _ & _ & Hall).
  exists w1. split; [exact Hrun|]. split; [exact Eg|].
  destruct (Hall 0%nat [[x61]; text_abc; text_e_acute])
    as (w2 & Hruns & Eg2 & Hc & _ & Hp).
  exists w2. split; [exact Hruns|]. split; [exact Eg2|].
  split; [exact Hc|exact Hp].
Defined.


Lemma world_ok_is_kept_witness :
  world_ok world_fresh /\
  world_ok (snd (AxInsertPermissions.CheckPermissions true []
                   (snd (getKeyboardSystem world_fresh)))).
Proof.
  destruct (world_ok_is_kept utf8_to_utf16) as (H0 & Hget & _ & _ & Hperm).
  split; [exact H0|]. apply Hperm, Hget, H0.
Defined.

Lemma InsertText_ignores_targetApp_witness :
  AxInsertBinding.InsertText utf8_to_utf16 0
    [JsObject [("text"%string, JsString [x61])]] world_fresh
  = AxInsertBinding.InsertText utf8_to_utf16 0
      [JsObject [("text"%string, JsString [x61]);
                 ("targetApp"%string, JsString [x62])]; JsNull] world_fresh.
Proof.
  apply (InsertText_ignores_targetApp utf8_to_utf16 0
           [("text"%string, JsString [x61])]
           [("text"%string, JsString [x61]);
            ("targetApp"%string, JsString [x62])] [] [JsNull] world_fresh).
  - reflexivity.
  - left. reflexivity.
  - right. exists [x62]. reflexivity.
Defined.

Lemma InsertText_throws_only_without_object_witness :
  exists r w',
    AxInsertBinding.InsertText utf8_to_utf16 0 [JsString [x61]] world_fresh
    = Ret (r, w') /\
    r = mkReturn JsNull (Some AxInsertBinding.error_argument) /\
    w' = world_fresh.
Proof.
  eexists _, _. split; [reflexivity|].
  apply (InsertText_throws_only_without_object utf8_to_utf16 0
           [JsString [x61]] world_fresh). reflexivity.
Defined.

Lemma CheckPermissions_probes_and_releases_witness :
  world_ok (snd (getKeyboardSystem world_fresh)) /\
  exists w',
    AxInsertPermissions.CheckPermissions true []
      (snd (getKeyboardSystem world_fresh))
    = (JsObject [("hasAccessibility"%string, JsBoolean true);
                 ("error"%string, JsNull)], w') /\
    trace w' = [Cout AxSystemInitialized; Cout AxPermissionGranted] /\
    liveSources w' = liveSources (snd (getKeyboardSystem world_fresh)).
Proof.
  assert (Hok : world_ok (snd (getKeyboardSystem world_fresh))).
  { unfold world_ok. cbn. repeat split.
    - intros h [<-|[]]. lia.
    - repeat constructor. intros [].
    - intros k [= <-]. cbn. split; [now left|reflexivity]. }
  split; [exact Hok|].
  destruct (CheckPermissions_probes_and_releases []
              (snd (getKeyboardSystem world_fresh)) Hok)
    as (w' & H1 & H2 & _ & _ & H3 & _).
  exists w'. split; [exact H1|]. split; [exact H2|exact H3].
Defined.

Lemma two_byte_characters_are_never_split_witness :
  forallb is_char12 chars_a_e_b_e = true /\
  chunking 4 (List.concat chars_a_e_b_e) 2 0
  = Ret [[x61]; [xc3; xa9]; [x62]; [xc3; xa9]] /\
  exists w',
    inputLargeText utf8_to_utf16 (List.length (List.concat chars_a_e_b_e))
                   keyboard_ready (List.concat chars_a_e_b_e) 2 world_fresh
    = Ret (true, w') /\
    posted w'
    = posted world_fresh
      ++ flat_map (key_pair (_source keyboard_ready))
                  (map code_point12 chars_a_e_b_e).
Proof.
  split; [reflexivity|]. split; [vm_compute; reflexivity|].
  apply (two_byte_characters_are_never_split keyboard_ready chars_a_e_b_e 2
           world_fresh).
  - reflexivity.
  - intros n. reflexivity.
  - reflexivity.
  - reflexivity.
  - lia.
Defined.
